(** * The asynq processor: queue selection, worker outcome routing, shutdown

    A shallow embedding of [processor.go] (the processor of the asynq task
    queue) and of the option composition of the client, together with the
    properties of their specification.

    Conventions of the embedding.
    - A Go [int] is a [Z]; the only operation of the code that can leave the
      64-bit range, the division, wraps explicitly.
    - A Go [map[string]int] is a [gmap string Z].  The order in which a
      [range] loop visits a map is not specified by the language: every
      function that ranges over a map takes the visiting order as an extra
      argument, a list [it] with [ranges m it].
    - A run-time panic is the [Panic] outcome of the [result] type.
    - Time instants and durations are integers (nanoseconds); the zero
      [time.Time] is instant [0]. *)

From Stdlib Require Import ZArith Lia.
From Equations Require Import Equations.
From stdpp Require Import base option list gmap strings pretty sorting.

Local Open Scope Z_scope.
Set Warnings "-clear-no-such-hyp".

(** ** Outcomes of Go code that may panic *)

Inductive result (A : Type) : Type :=
| Ok (a : A)
| Panic (reason : string).
Arguments Ok {A} a.
Arguments Panic {A} reason.

#[global] Instance result_ret : MRet result := fun _ a => Ok a.
#[global] Instance result_bind : MBind result := fun _ _ f r =>
  match r with
  | Ok a => f a
  | Panic s => Panic s
  end.

Definition is_panic {A} (r : result A) : bool :=
  match r with Ok _ => false | Panic _ => true end.

(** ** Machine integers *)

Module Int.

Definition min_int : Z := - 2 ^ 63.
Definition max_int : Z := 2 ^ 63 - 1.

Definition in_range (z : Z) : Prop := min_int <= z <= max_int.

(** Two's complement wrap-around of a 64-bit signed integer. *)
Definition wrap (z : Z) : Z := (z + 2 ^ 63) mod 2 ^ 64 - 2 ^ 63.

(** [x / y] of Go: truncated quotient, a panic on a zero divisor. *)
Definition quo (x y : Z) : result Z :=
  if y =? 0 then Panic "integer divide by zero" else Ok (wrap (x ÷ y)).

(** [x % y] of Go for [y <> 0]: the remainder has the sign of [x]. *)
Definition rem (x y : Z) : Z := Z.rem x y.

End Int.

(** ** Queue configuration: [gcd] and [normalizeQueueCfg] *)

(** [it] is an order in which a [range] loop may visit the map [m]. *)
Definition ranges {V} (m : gmap string V) (it : list (string * V)) : Prop :=
  it ≡ₚ map_to_list m.

(** The closure [fn] of [gcd]: [for y > 0 { x, y = y, x%y }; return x]. *)
Equations? fn (x y : Z) : Z by wf (Z.to_nat y) lt :=
  fn x y with Z_lt_dec 0 y => {
    | left _ := fn y (Int.rem x y);
    | right _ := x }.
Proof.
  unfold Int.rem.
  assert (Z.abs (Z.rem x y) < Z.abs y) by (apply Z.rem_bound_abs; lia).
  lia.
Qed.

(** The loop of [gcd], entered with [res = xs[0]]. *)
Fixpoint gcd_loop (xs : list Z) (res : Z) : Z :=
  match xs with
  | [] => res
  | x :: rest =>
      let res' := fn x res in
      if res' =? 1 then 1 else gcd_loop rest res'
  end.

Definition gcd (xs : list Z) : result Z :=
  match xs with
  | [] => Panic "index out of range [0] with length 0"
  | x0 :: _ => Ok (gcd_loop xs x0)
  end.

(** The second loop of [normalizeQueueCfg]: [res[q] = x / d]. *)
Fixpoint divide_all (it : list (string * Z)) (d : Z) (res : gmap string Z)
  : result (gmap string Z) :=
  match it with
  | [] => Ok res
  | (q, x) :: rest => v ← Int.quo x d; divide_all rest d (<[q := v]> res)
  end.

(** [normalizeQueueCfg queueCfg], its two [range] loops visiting the map in
    the orders [it1] and [it2]. *)
Definition normalizeQueueCfg (it1 it2 : list (string * Z))
  : result (gmap string Z) :=
  d ← gcd (it1.*2);
  divide_all it2 d ∅.

(** ** Time, errors, tasks and messages *)

Definition Time : Type := Z.
Definition Duration : Type := Z.
Definition Second : Duration := 1000000000.

(** A non-nil Go [error], known by its message; the nil error is [None]. *)
Record error : Type := errorString { Error : string }.

#[global] Instance error_eq_dec : EqDecision error.
Proof. solve_decision. Defined.

(** The values of the empty interface that a handler panics with and that
    [recover] returns; [VNil] is the nil interface value, which
    [panic(nil)] raises. *)
Inductive value : Type :=
| VNil
| VInt (n : Z)
| VString (s : string)
| VError (e : error).

(** The text that the verb [%v] of package fmt prints for a value. *)
Definition Sprint (v : value) : string :=
  match v with
  | VNil => "<nil>"
  | VInt n => pretty n
  | VString s => s
  | VError e => Error e
  end.

Module base.

Record TaskMessage : Type := {
  Type_ : string;
  Payload : gmap string string;
  ID : string;
  Queue : string;
  Retry : Z;
  Retried : Z;
  ErrorMsg : string;
  Timeout : string;
  Deadline : string
}.

#[global] Instance TaskMessage_eq_dec : EqDecision TaskMessage.
Proof. solve_decision. Defined.

(** Modelled from the spec: the constant [base.DefaultQueueName] of
    package base, whose declaration is not part of the processor; the spec
    calls the queue [default]. *)
Definition DefaultQueueName : string := "default".

(** What [ps.Get()] returns, as far as [newProcessor] reads it. *)
Record ProcessInfo : Type := {
  Concurrency : Z;
  Queues : gmap string Z;
  StrictPriority : bool
}.

End base.

Record Task : Type := { TaskType : string; TaskPayload : gmap string string }.

Definition NewTask (typename : string) (payload : gmap string string) : Task :=
  {| TaskType := typename; TaskPayload := payload |}.

(** ** Package context

    Contexts form a chain towards [Background].  [WithDeadline] follows
    the library: under a parent whose deadline is already earlier it only
    adds a cancellation node. *)

Inductive Context : Type :=
| Background
| cancelCtx (parent : Context)
| timerCtx (parent : Context) (deadline : Time).

(** The method [Deadline] of a context. *)
Fixpoint ctxDeadline (c : Context) : option Time :=
  match c with
  | Background => None
  | cancelCtx parent => ctxDeadline parent
  | timerCtx _ d => Some d
  end.

(** A cancel function, known by the context it cancels. *)
Definition CancelFunc : Type := Context.

Definition WithCancel (parent : Context) : Context * CancelFunc :=
  (cancelCtx parent, cancelCtx parent).

Definition WithDeadline (parent : Context) (d : Time) : Context * CancelFunc :=
  match ctxDeadline parent with
  | Some cur => if cur <? d then WithCancel parent
                else (timerCtx parent d, timerCtx parent d)
  | None => (timerCtx parent d, timerCtx parent d)
  end.

Definition WithTimeout (now : Time) (parent : Context) (timeout : Duration)
  : Context * CancelFunc :=
  WithDeadline parent (now + timeout).

(** [expired c t]: at instant [t] a timer of [c] or of one of its ancestors
    has fired, so that [c] is cancelled with [DeadlineExceeded] (unless a
    cancel function was called before). *)
Fixpoint expired (c : Context) (t : Time) : bool :=
  match c with
  | Background => false
  | cancelCtx parent => expired parent t
  | timerCtx parent d => (d <=? t) || expired parent t
  end.

Section CreateContext.

(** [time.ParseDuration] and [time.Parse(time.RFC3339, _)]: [None] is a
    parse error. *)
Variable ParseDuration : string -> option Duration.
Variable ParseRFC3339 : string -> option Time.

(** [createContext msg], called at instant [now]; the [cancel] variable
    of the code is [None] while it is nil. *)
Definition createContext (now : Time) (msg : base.TaskMessage)
  : Context * CancelFunc :=
  let ctx := Background in
  let cancel : option CancelFunc := None in
  let '(ctx, cancel) :=
    match ParseDuration (base.Timeout msg) with
    | Some timeout =>
        if negb (timeout =? 0)
        then let '(c, f) := WithTimeout now ctx timeout in (c, Some f)
        else (ctx, cancel)
    | None => (ctx, cancel)
    end in
  let '(ctx, cancel) :=
    match ParseRFC3339 (base.Deadline msg) with
    | Some deadline =>
        if negb (deadline =? 0)
        then let '(c, f) := WithDeadline ctx deadline in (c, Some f)
        else (ctx, cancel)
    | None => (ctx, cancel)
    end in
  match cancel with
  | Some f => (ctx, f)
  | None => WithCancel ctx
  end.

End CreateContext.

(** ** Handlers and [perform] *)

(** How a call of [ProcessTask] ends. *)
Inductive HandlerOutcome : Type :=
| Returns (err : option error)
| Panics (v : value).

Definition Handler : Type := Context -> Task -> HandlerOutcome.

(** [fmt.Errorf("panic: %v", x)]. *)
Definition panicError (x : value) : error := errorString ("panic: " +:+ Sprint x).

(** [recover()] in the deferred function of [perform]: the value of the
    panic that is under way, and nil if there is none.  A handler that
    calls [panic(nil)] makes it return nil as well (the Go releases before
    1.21, for which this code is written). *)
Definition recover (out : HandlerOutcome) : value :=
  match out with
  | Returns _ => VNil
  | Panics x => x
  end.

(** [perform ctx task h].  [err] is the named result when the deferred
    function runs: what the handler returned, or still nil if the handler
    panicked; the deferred function sets it if [x := recover(); x != nil]. *)
Definition perform (ctx : Context) (task : Task) (h : Handler) : option error :=
  let out := h ctx task in
  let err := match out with Returns e => e | Panics _ => None end in
  match recover out with
  | VNil => err
  | x => Some (panicError x)
  end.

(** ** The broker, as the processor sees it *)

Module rdb.

(** The errors of [Dequeue] that [exec] tells apart. *)
Inductive DequeueError : Type :=
| ErrNoProcessableTask
| ErrOther (e : error).

(** The operations of [*rdb.RDB] over a broker state [B]; an operation
    returns the new state of the broker and its Go result. *)
Record RDB (B : Type) : Type := {
  Dequeue : list string -> B -> B * (base.TaskMessage + DequeueError);
  Requeue : base.TaskMessage -> B -> B * option error;
  Done : base.TaskMessage -> B -> B * option error;
  Retry : base.TaskMessage -> Time -> string -> B -> B * option error;
  Kill : base.TaskMessage -> string -> B -> B * option error;
  RequeueAll : B -> B * (Z * option error)
}.
Arguments Dequeue {B}.
Arguments Requeue {B}.
Arguments Done {B}.
Arguments Retry {B}.
Arguments Kill {B}.
Arguments RequeueAll {B}.

End rdb.

(** ** Effects of the processor *)

(** A call of a broker operation with its arguments. *)
Inductive Call : Type :=
| CallDequeue (qnames : list string)
| CallRequeue (msg : base.TaskMessage)
| CallDone (msg : base.TaskMessage)
| CallRetry (msg : base.TaskMessage) (retryAt : Time) (errMsg : string)
| CallKill (msg : base.TaskMessage) (errMsg : string)
| CallRequeueAll.

Inductive Level : Type := Info | Warn | Err.

(** What a goroutine of the processor does to its collaborators, in the
    order in which it does it. *)
Inductive Event : Type :=
| EvCall (c : Call)
| EvAddWorkerStats (msg : base.TaskMessage) (started : Time)
| EvDeleteWorkerStats (msg : base.TaskMessage)
| EvAcquire
| EvRelease
| EvCancelationsAdd (id : string) (cancel : CancelFunc)
| EvCancelationsDelete (id : string)
| EvHandleError (task : Task) (err : error) (retried retry : Z)
| EvSync (retrying : Call)
| EvLog (lvl : Level) (format : string)
| EvSleep (d : Duration).

Definition is_transition (e : Event) : bool :=
  match e with
  | EvCall (CallRequeue _) | EvCall (CallDone _)
  | EvCall (CallRetry _ _ _) | EvCall (CallKill _ _)
  | EvSync _ => true
  | _ => false
  end.

(** The state of the broker and the effects so far, oldest first. *)
Record World (B : Type) : Type := mkWorld { broker : B; trace : list Event }.
Arguments mkWorld {B}.
Arguments broker {B}.
Arguments trace {B}.

Definition emit {B} (e : Event) (w : World B) : World B :=
  mkWorld (broker w) (trace w ++ [e]).

(** Run a broker operation in a world and log the call. *)
Definition invoke {B R} (c : Call) (op : B -> B * R) (w : World B)
  : World B * R :=
  let '(b, r) := op (broker w) in
  (mkWorld b (trace w ++ [EvCall c]), r).

(** ** The processor *)

Inductive ErrorHandler : Type := UserErrorHandler.

Definition retryDelayFunc : Type := Z -> error -> Task -> Duration.

(** The fields of [processor] that do not change after [newProcessor];
    [semaCap] is [cap(p.sema)].  The channels and [once] are in
    [Shutdown.state]. *)
Record processor (B : Type) : Type := {
  p_rdb : rdb.RDB B;
  p_handler : Handler;
  queueConfig : gmap string Z;
  (** [None] is the nil slice: set only in strict-priority mode. *)
  orderedQueues : option (list string);
  p_retryDelayFunc : retryDelayFunc;
  errHandler : option ErrorHandler;
  semaCap : nat
}.
Arguments p_rdb {B}.
Arguments p_handler {B}.
Arguments queueConfig {B}.
Arguments orderedQueues {B}.
Arguments p_retryDelayFunc {B}.
Arguments errHandler {B}.
Arguments semaCap {B}.

(** *** Queue selection: [uniq], [Shuffle], [sortByPriority], [queues] *)

(** [uniq names l]; [seen] and [res] are the loop's variables. *)
Fixpoint uniq_loop (names : list string) (l : nat)
    (seen : gset string) (res : list string) : list string :=
  match names with
  | [] => res
  | s :: rest =>
      let '(seen', res') :=
        if decide (s ∈ seen) then (seen, res) else ({[s]} ∪ seen, res ++ [s]) in
      if decide (length res' = l) then res' else uniq_loop rest l seen' res'
  end.

Definition uniq (names : list string) (l : nat) : list string :=
  uniq_loop names l ∅ [].

(** [names[i], names[j] = names[j], names[i]]: an index out of range
    panics. *)
Definition swap (names : list string) (i j : nat) : result (list string) :=
  match names !! i, names !! j with
  | Some x, Some y => Ok (<[i := y]> (<[j := x]> names))
  | _, _ => Panic "index out of range"
  end.

(** A source of pseudo-random numbers, as seeded by [rand.NewSource]: its
    [k]-th draw below a bound [n > 0] is [r k mod n], a number of [[0, n)]. *)
Definition Rand : Type := nat -> nat.

Definition Intn (r : Rand) (k n : nat) : nat := (r k mod n)%nat.

(** [r.Shuffle(n, swap)] of math/rand, the Fisher-Yates loop
    [for i := n-1; i > 0; i-- { j := r.Intn(i+1); swap(i, j) }];
    [k] counts the draws made so far. *)
Fixpoint shuffle_loop (r : Rand) (k i : nat) (names : list string)
  : result (list string) :=
  match i with
  | O => Ok names
  | S i' =>
      names' ← swap names i (Intn r k (S i));
      shuffle_loop r (S k) i' names'
  end.

Definition Shuffle (r : Rand) (names : list string) : result (list string) :=
  shuffle_loop r 0 (length names - 1)%nat names.

(** The list built by the nested loop of [queues]: every queue name
    [priority] times, in the order [it] in which the map is visited. *)
Fixpoint weighted_names (it : list (string * Z)) : list string :=
  match it with
  | [] => []
  | (qname, priority) :: rest =>
      replicate (Z.to_nat priority) qname ++ weighted_names rest
  end.

(** [p.queues()]; [it] is the order in which the map is visited and [r]
    the generator seeded from the clock. *)
Definition queues {B} (p : processor B) (it : list (string * Z)) (r : Rand)
  : result (list string) :=
  match (if decide (size (queueConfig p) = 1%nat) then head it else None) with
  | Some (qname, _) => Ok [qname]
  | None =>
      match orderedQueues p with
      | Some oq => Ok oq
      | None =>
          names ← Shuffle r (weighted_names it);
          Ok (uniq names (size (queueConfig p)))
      end
  end.

(** [sort.Sort(sort.Reverse(byPriority(queues)))]: descending priority.
    The library sort is not stable; which of two queues of equal priority
    comes first varies with the visiting order [it]. *)
Definition byPriority_desc (a b : string * Z) : Prop := b.2 <= a.2.

#[global] Instance byPriority_desc_dec a b : Decision (byPriority_desc a b).
Proof. unfold byPriority_desc. apply _. Defined.

(** [sortByPriority qcfg]; the result is the nil slice for an empty map. *)
Definition sortByPriority (it : list (string * Z)) : option (list string) :=
  match (merge_sort byPriority_desc it).*1 with
  | [] => None
  | res => Some res
  end.

(** [newProcessor]: [info] is [ps.Get()]; [it1] and [it2] are the visiting
    orders of [info.Queues] in [normalizeQueueCfg] and [it3] that of the
    normalized map in [sortByPriority].  [make] panics on a negative
    channel size. *)
Definition newProcessor {B} (r : rdb.RDB B) (info : base.ProcessInfo)
    (it1 it2 : list (string * Z)) (it3 : gmap string Z -> list (string * Z))
    (fn : retryDelayFunc) (errHandler : option ErrorHandler)
  : result (processor B) :=
  qcfg ← normalizeQueueCfg it1 it2;
  let orderedQueues :=
    if base.StrictPriority info then sortByPriority (it3 qcfg) else None in
  if base.Concurrency info <? 0 then Panic "makechan: size out of range"
  else Ok {| p_rdb := r;
             p_handler := fun _ _ => Returns (Some (errorString "handler not set"));
             queueConfig := qcfg;
             orderedQueues := orderedQueues;
             p_retryDelayFunc := fn;
             errHandler := errHandler;
             semaCap := Z.to_nat (base.Concurrency info) |}.

(** *** The worker and [exec] *)

(** Which case of a [select] statement is taken. *)
Inductive DispatchSelect : Type := SelectAbort | SelectSema.
Inductive WorkerSelect : Type := SelectQuit | SelectResult.

(** What one run of [exec] observes of its environment: the answer of
    [errLogLimiter.Allow()], the cases taken by the two [select]
    statements, and the readings of [time.Now()] at [AddWorkerStats], in
    [createContext] and in [retry]. *)
Record Oracle : Type := {
  allow : bool;
  dispatch : DispatchSelect;
  wait : WorkerSelect;
  tStats : Time;
  tContext : Time;
  tRetry : Time
}.

Section Exec.

Context {B : Type}.
Variable ParseDuration : string -> option Duration.
Variable ParseRFC3339 : string -> option Time.
Variable p : processor B.

Definition restore (w : World B) : World B :=
  let '(w, (n, err)) := invoke CallRequeueAll (rdb.RequeueAll (p_rdb p)) w in
  let w := match err with
           | Some _ => emit (EvLog Err "Could not restore unfinished tasks: %v") w
           | None => w
           end in
  if 0 <? n then emit (EvLog Info "Restored %d unfinished tasks back to queue") w
  else w.

Definition requeue (msg : base.TaskMessage) (w : World B) : World B :=
  let '(w, err) := invoke (CallRequeue msg) (rdb.Requeue (p_rdb p) msg) w in
  match err with
  | Some _ => emit (EvLog Err "Could not push task id=%s back to queue: %v") w
  | None => w
  end.

Definition markAsDone (msg : base.TaskMessage) (w : World B) : World B :=
  let '(w, err) := invoke (CallDone msg) (rdb.Done (p_rdb p) msg) w in
  match err with
  | Some _ =>
      emit (EvSync (CallDone msg)) (emit (EvLog Warn "%s; Will retry syncing") w)
  | None => w
  end.

Definition retry (now : Time) (msg : base.TaskMessage) (e : error)
    (w : World B) : World B :=
  let d := p_retryDelayFunc p (base.Retried msg) e
             (NewTask (base.Type_ msg) (base.Payload msg)) in
  let retryAt := now + d in
  let c := CallRetry msg retryAt (Error e) in
  let '(w, err) := invoke c (rdb.Retry (p_rdb p) msg retryAt (Error e)) w in
  match err with
  | Some _ => emit (EvSync c) (emit (EvLog Warn "%s; Will retry syncing") w)
  | None => w
  end.

Definition kill (msg : base.TaskMessage) (e : error) (w : World B) : World B :=
  let w := emit (EvLog Warn "Retry exhausted for task id=%s") w in
  let c := CallKill msg (Error e) in
  let '(w, err) := invoke c (rdb.Kill (p_rdb p) msg (Error e)) w in
  match err with
  | Some _ => emit (EvSync c) (emit (EvLog Warn "%s; Will retry syncing") w)
  | None => w
  end.

(** The goroutine that runs the handler: what it sends on [resCh], and its
    own effect once the handler has returned. *)
Definition handlerGoroutine (ctx : Context) (task : Task)
    (msg : base.TaskMessage) : option error * list Event :=
  (perform ctx task (p_handler p), [EvCancelationsDelete (base.ID msg)]).

(** The [select] of the worker on [p.quit] and [resCh]. *)
Definition await (o : Oracle) (ctx : Context) (task : Task)
    (msg : base.TaskMessage) (w : World B) : World B :=
  match wait o with
  | SelectQuit => emit (EvLog Warn "Quitting worker. task id=%s") w
  | SelectResult =>
      match (handlerGoroutine ctx task msg).1 with
      | Some resErr =>
          let w :=
            match errHandler p with
            | Some _ =>
                emit (EvHandleError task resErr (base.Retried msg) (base.Retry msg)) w
            | None => w
            end in
          if base.Retried msg >=? base.Retry msg
          then kill msg resErr w
          else retry (tRetry o) msg resErr w
      | None => markAsDone msg w
      end
  end.

(** The worker goroutine started by [exec] for [msg]; the deferred function
    runs last, on every path. *)
Definition worker (o : Oracle) (msg : base.TaskMessage) (w : World B)
  : World B :=
  let task := NewTask (base.Type_ msg) (base.Payload msg) in
  let '(ctx, cancel) :=
    createContext ParseDuration ParseRFC3339 (tContext o) msg in
  let w := emit (EvCancelationsAdd (base.ID msg) cancel) w in
  let w := await o ctx task msg w in
  emit EvRelease (emit (EvDeleteWorkerStats msg) w).

(** [p.exec()], followed by the worker it starts. *)
Definition exec (it : list (string * Z)) (r : Rand) (o : Oracle)
    (w : World B) : result (World B) :=
  qnames ← queues p it r;
  let '(w, res) := invoke (CallDequeue qnames) (rdb.Dequeue (p_rdb p) qnames) w in
  match res with
  | inr rdb.ErrNoProcessableTask =>
      Ok (if decide (1 < size (queueConfig p))%nat then emit (EvSleep Second) w
          else w)
  | inr (rdb.ErrOther _) =>
      Ok (if allow o then emit (EvLog Err "Dequeue error: %v") w else w)
  | inl msg =>
      match dispatch o with
      | SelectAbort => Ok (requeue msg w)
      | SelectSema =>
          let w := emit EvAcquire w in
          let w := emit (EvAddWorkerStats msg (tStats o)) w in
          Ok (worker o msg w)
      end
  end.

End Exec.

(** ** Shutdown: [stop], [terminate] and the forced-quit timer *)

Module Shutdown.

(** [p.once]: idle, inside its function (the mutex of [Once] is held), or
    done. *)
Inductive OnceState : Type := OnceIdle | OnceRunning | OnceDone.

(** The channels of the processor and what shutdown has done so far.
    - [loopRunning]: the goroutine of [start] is in its loop, so a value
      sent on [p.done] is received (after which the loop returns);
    - [doneSent]: the number of values sent on [p.done];
    - [timers]: the timers armed by [time.AfterFunc] that have not fired;
    - [workers]: the tokens of [p.sema] held by the workers that have not
      returned;
    - [drained]: the tokens that [terminate] has put into [p.sema];
    - [cancelRounds]: how often the registered cancel functions were called;
    - [restores]: the number of calls of [p.restore]. *)
Record state : Type := mkState {
  once : OnceState;
  abortClosed : bool;
  loopRunning : bool;
  doneSent : nat;
  quitClosed : bool;
  timers : list Duration;
  workers : nat;
  drained : nat;
  cancelRounds : nat;
  restores : nat
}.

#[global] Instance OnceState_eq_dec : EqDecision OnceState.
Proof. solve_decision. Defined.

#[global] Instance state_eq_dec : EqDecision state.
Proof. solve_decision. Defined.

(** How a call ends: it returns, it panics, or it blocks on a channel or
    on the mutex of [Once], for ever unless another goroutine acts on what
    it waits for; in each case in some state. *)
Inductive outcome : Type :=
| Returned (st : state)
| Panicked (reason : string) (st : state)
| Blocked (st : state).

Definition state_of (o : outcome) : state :=
  match o with
  | Returned st | Panicked _ st | Blocked st => st
  end.

Definition panicked (o : outcome) : bool :=
  match o with Panicked _ _ => true | _ => false end.

Definition set_once (v : OnceState) (st : state) : state :=
  mkState v (abortClosed st) (loopRunning st) (doneSent st) (quitClosed st)
          (timers st) (workers st) (drained st) (cancelRounds st) (restores st).

Definition close_abort (st : state) : state :=
  mkState (once st) true (loopRunning st) (doneSent st) (quitClosed st)
          (timers st) (workers st) (drained st) (cancelRounds st) (restores st).

(** The loop of [start] receives the value and returns. *)
Definition send_done (st : state) : state :=
  mkState (once st) (abortClosed st) false (S (doneSent st)) (quitClosed st)
          (timers st) (workers st) (drained st) (cancelRounds st) (restores st).

Definition close_quit (st : state) : state :=
  mkState (once st) (abortClosed st) (loopRunning st) (doneSent st) true
          (timers st) (workers st) (drained st) (cancelRounds st) (restores st).

Definition set_timers (ts : list Duration) (st : state) : state :=
  mkState (once st) (abortClosed st) (loopRunning st) (doneSent st)
          (quitClosed st) ts (workers st) (drained st) (cancelRounds st)
          (restores st).

Definition set_sema (w d : nat) (st : state) : state :=
  mkState (once st) (abortClosed st) (loopRunning st) (doneSent st)
          (quitClosed st) (timers st) w d (cancelRounds st) (restores st).

Definition cancel_all (st : state) : state :=
  mkState (once st) (abortClosed st) (loopRunning st) (doneSent st)
          (quitClosed st) (timers st) (workers st) (drained st)
          (S (cancelRounds st)) (restores st).

Definition do_restore (st : state) : state :=
  mkState (once st) (abortClosed st) (loopRunning st) (doneSent st)
          (quitClosed st) (timers st) (workers st) (drained st)
          (cancelRounds st) (S (restores st)).

(** The function that [stop] hands to [p.once.Do]: [close(p.abort)], then
    [p.done <- struct{}{}], which blocks while nobody receives. *)
Definition stop_body (st : state) : outcome :=
  if abortClosed st then Panicked "close of closed channel" (set_once OnceDone st)
  else
    let st := close_abort st in
    if loopRunning st then Returned (set_once OnceDone (send_done st))
    else Blocked (set_once OnceRunning st).

(** [p.stop()]. *)
Definition stop (st : state) : outcome :=
  match once st with
  | OnceDone => Returned st
  | OnceRunning => Blocked st
  | OnceIdle => stop_body st
  end.

(** [const timeout = 8 * time.Second] of [terminate]. *)
Definition timeout : Duration := 8 * Second.

(** The loop [for i := 0; i < cap(p.sema); i++ { p.sema <- struct{}{} }],
    [n] iterations to go with [held] tokens in the channel: a send blocks
    on a full channel.  Returns the tokens held and whether the loop has
    finished. *)
Fixpoint acquireAll (n cap held : nat) : nat * bool :=
  match n with
  | O => (held, true)
  | S n' => if (held <? cap)%nat then acquireAll n' cap (S held) else (held, false)
  end.

(** The end of [terminate], with [n] iterations of its loop to go: the
    channel [p.sema] holds the tokens of the workers that have not
    returned and the tokens that [terminate] has sent, which stay in it;
    [p.restore()] follows the loop. *)
Definition drain (n cap : nat) (st : state) : outcome :=
  let '(held, finished) := acquireAll n cap (workers st + drained st) in
  let st := set_sema (workers st) (held - workers st) st in
  if finished then Returned (do_restore st) else Blocked st.

(** [p.terminate()] for a processor with [cap(p.sema) = cap]. *)
Definition terminate (cap : nat) (st : state) : outcome :=
  match stop st with
  | Returned st =>
      let st := set_timers (timers st ++ [timeout]) st in
      let st := cancel_all st in
      drain cap cap st
  | o => o
  end.

(** A worker returns (after the case of its [select] that it took) and its
    deferred function [<-p.sema] takes a token out of the channel; a worker
    that is stuck, in its handlers or in the broker, takes none.  There is
    nothing to take when no worker is left. *)
Definition worker_returns (st : state) : state :=
  set_sema (pred (workers st)) (drained st) st.

(** The first [terminate] of a processor, blocked in its loop, goes on
    after workers have returned: the [drained st] tokens in the channel
    that are not a worker's are the ones it has sent, so its loop has
    [cap - drained st] iterations to go. *)
Definition resume (cap : nat) (st : state) : outcome :=
  drain (cap - drained st) cap st.

(** The oldest timer fires and runs [close(p.quit)]. *)
Definition fire (st : state) : outcome :=
  match timers st with
  | [] => Returned st
  | _ :: rest =>
      let st := set_timers rest st in
      if quitClosed st then Panicked "close of closed channel" st
      else Returned (close_quit st)
  end.

(** A processor after [newProcessor] and [start], with [w] workers that
    have not returned. *)
Definition started (w : nat) : state :=
  mkState OnceIdle false true 0 false [] w 0 0 0.

(** The calls of a shutdown. *)
Inductive op : Type := Stop | Terminate.

#[global] Instance op_eq_dec : EqDecision op.
Proof. solve_decision. Defined.

Definition call (cap : nat) (o : op) (st : state) : outcome :=
  match o with
  | Stop => stop st
  | Terminate => terminate cap st
  end.

(** Calls made one after the other, each from a goroutine of its own, so
    that a call that blocks does not keep the next from being made; a
    panic ends the program. *)
Fixpoint calls (cap : nat) (os : list op) (st : state) : outcome :=
  match os with
  | [] => Returned st
  | o :: rest =>
      match call cap o st, rest with
      | Panicked s st', _ => Panicked s st'
      | out, [] => out
      | out, _ => calls cap rest (state_of out)
      end
  end.

End Shutdown.

(** ** The client: options of a task *)

Module client.

Inductive Option : Type :=
| retryOption (n : Z)
| queueOption (name : string)
| timeoutOption (d : Duration)
| deadlineOption (t : Time)
(** any other value of the empty interface *)
| unexpectedOption.

Definition MaxRetry (n : Z) : Option :=
  let n := if n <? 0 then 0 else n in
  retryOption n.

Definition Timeout (d : Duration) : Option := timeoutOption d.

Definition Deadline (t : Time) : Option := deadlineOption t.

Record option_ : Type := {
  retry : Z;
  queue : string;
  timeout : Duration;
  deadline : Time
}.

Definition defaultMaxRetry : Z := 25.

(** One turn of the loop of [composeOptions]. *)
Definition applyOption (res : option_) (opt : Option) : option_ :=
  match opt with
  | retryOption n =>
      {| retry := n; queue := queue res; timeout := timeout res; deadline := deadline res |}
  | queueOption name =>
      {| retry := retry res; queue := name; timeout := timeout res; deadline := deadline res |}
  | timeoutOption d =>
      {| retry := retry res; queue := queue res; timeout := d; deadline := deadline res |}
  | deadlineOption t =>
      {| retry := retry res; queue := queue res; timeout := timeout res; deadline := t |}
  | unexpectedOption => res
  end.

Definition composeOptions (opts : list Option) : option_ :=
  foldl applyOption
    {| retry := defaultMaxRetry; queue := base.DefaultQueueName;
       timeout := 0; deadline := 0 |}
    opts.

Section Strings.

(** [strings.ToLower], [Duration.String] and [Time.Format(time.RFC3339)]. *)
Variable ToLower : string -> string.
Variable DurationString : Duration -> string.
Variable FormatRFC3339 : Time -> string.

Definition Queue (name : string) : Option := queueOption (ToLower name).

(** The message that [EnqueueAt] builds for [task]; [id] is [xid.New()]. *)
Definition EnqueueAt_msg (id : string) (task : Task) (opts : list Option)
  : base.TaskMessage :=
  let opt := composeOptions opts in
  {| base.ID := id;
     base.Type_ := TaskType task;
     base.Payload := TaskPayload task;
     base.Queue := queue opt;
     base.Retry := retry opt;
     base.Retried := 0;
     base.ErrorMsg := "";
     base.Timeout := DurationString (timeout opt);
     base.Deadline := FormatRFC3339 (deadline opt) |}.

End Strings.

(** [strings.ToLower] on strings of ASCII characters. *)
Definition lower_ascii (c : Ascii.ascii) : Ascii.ascii :=
  let n := Ascii.nat_of_ascii c in
  if ((65 <=? n) && (n <=? 90))%nat then Ascii.ascii_of_nat (n + 32) else c.

Fixpoint ToLower_ascii (s : string) : string :=
  match s with
  | EmptyString => EmptyString
  | String c rest => String (lower_ascii c) (ToLower_ascii rest)
  end.

End client.

(** ** The broker of the specification

    Package rdb and the scheduler are collaborators outside the processor;
    this module follows the table of operations of the specification
    (section 4.2). *)

Module Broker.

(** Modelled from the spec: the broker-side sets of section 3, which
    package rdb keeps in the key/value store: [pending] by queue name,
    [in_progress], and [scheduled], [retry] and [dead], sets of messages
    with a score; [clock] is the time of the store. *)
Record state : Type := mkState {
  pending : gmap string (list base.TaskMessage);
  in_progress : list base.TaskMessage;
  scheduled : list (Time * base.TaskMessage);
  retry : list (Time * base.TaskMessage);
  dead : list (Time * base.TaskMessage);
  clock : Time
}.

Definition with_retried (n : Z) (errMsg : string) (m : base.TaskMessage)
  : base.TaskMessage :=
  {| base.Type_ := base.Type_ m; base.Payload := base.Payload m;
     base.ID := base.ID m; base.Queue := base.Queue m;
     base.Retry := base.Retry m; base.Retried := n;
     base.ErrorMsg := errMsg;
     base.Timeout := base.Timeout m; base.Deadline := base.Deadline m |}.

Definition remove (m : base.TaskMessage) (l : list base.TaskMessage)
  : list base.TaskMessage :=
  filter (fun x => x ≠ m) l.

Definition push_back (m : base.TaskMessage)
    (pend : gmap string (list base.TaskMessage))
  : gmap string (list base.TaskMessage) :=
  <[base.Queue m := default [] (pend !! base.Queue m) ++ [m]]> pend.

Definition push_front (m : base.TaskMessage)
    (pend : gmap string (list base.TaskMessage))
  : gmap string (list base.TaskMessage) :=
  <[base.Queue m := m :: default [] (pend !! base.Queue m)]> pend.

Definition notFound : error := errorString "task not found in in-progress".

Fixpoint pop_first (names : list string)
    (pend : gmap string (list base.TaskMessage))
  : option (base.TaskMessage * gmap string (list base.TaskMessage)) :=
  match names with
  | [] => None
  | q :: rest =>
      match pend !! q with
      | Some (m :: ms) => Some (m, <[q := ms]> pend)
      | _ => pop_first rest pend
      end
  end.

(** Modelled from the spec: [Dequeue(names...)] pops the head of the first
    non-empty [pending[name]] and pushes it onto [in-progress]; if all are
    empty it fails with [NoProcessableTask]. *)
Definition Dequeue (names : list string) (st : state)
  : state * (base.TaskMessage + rdb.DequeueError) :=
  match pop_first names (pending st) with
  | Some (m, pend) =>
      (mkState pend (m :: in_progress st) (scheduled st) (retry st) (dead st)
               (clock st), inl m)
  | None => (st, inr rdb.ErrNoProcessableTask)
  end.

(** Modelled from the spec: [Requeue(msg)] removes [msg] from [in-progress]
    and pushes it back to the head of [pending[msg.queue]]; an operation
    succeeds or is a no-op, here with an error. *)
Definition Requeue (msg : base.TaskMessage) (st : state) : state * option error :=
  if decide (msg ∈ in_progress st)
  then (mkState (push_front msg (pending st)) (remove msg (in_progress st))
                (scheduled st) (retry st) (dead st) (clock st), None)
  else (st, Some notFound).

(** Modelled from the spec: [Done(msg)] removes [msg] from [in-progress]. *)
Definition Done (msg : base.TaskMessage) (st : state) : state * option error :=
  if decide (msg ∈ in_progress st)
  then (mkState (pending st) (remove msg (in_progress st)) (scheduled st)
                (retry st) (dead st) (clock st), None)
  else (st, Some notFound).

(** Modelled from the spec: [Retry(msg, retry_at, err_str)] increments
    [retried], writes [error_msg], removes [msg] from [in-progress] and
    inserts it into [retry] with score [retry_at]. *)
Definition Retry (msg : base.TaskMessage) (retryAt : Time) (errMsg : string)
    (st : state) : state * option error :=
  if decide (msg ∈ in_progress st)
  then (mkState (pending st) (remove msg (in_progress st)) (scheduled st)
                ((retryAt, with_retried (base.Retried msg + 1) errMsg msg) :: retry st)
                (dead st) (clock st), None)
  else (st, Some notFound).

(** Modelled from the spec: [Kill(msg, err_str)] writes [error_msg],
    removes [msg] from [in-progress] and inserts it into [dead] with the
    current time as score. *)
Definition Kill (msg : base.TaskMessage) (errMsg : string) (st : state)
  : state * option error :=
  if decide (msg ∈ in_progress st)
  then (mkState (pending st) (remove msg (in_progress st)) (scheduled st)
                (retry st)
                ((clock st, with_retried (base.Retried msg) errMsg msg) :: dead st)
                (clock st), None)
  else (st, Some notFound).

(** Modelled from the spec: [RequeueAll()] moves every message of
    [in-progress] back to its [pending[queue]] and returns their number. *)
Definition RequeueAll (st : state) : state * (Z * option error) :=
  (mkState (foldr push_front (pending st) (in_progress st)) [] (scheduled st)
           (retry st) (dead st) (clock st),
   (Z.of_nat (length (in_progress st)), None)).

Definition ops : rdb.RDB state :=
  {| rdb.Dequeue := Dequeue; rdb.Requeue := Requeue; rdb.Done := Done;
     rdb.Retry := Retry; rdb.Kill := Kill; rdb.RequeueAll := RequeueAll |}.

(** Modelled from the spec: the scheduler promotes the messages of
    [scheduled] and [retry] into their ready queues at their due time;
    [promote now] is one pass of it at [now]. *)
Definition promote (now : Time) (st : state) : state :=
  let due := filter (fun e => e.1 <= now) (retry st ++ scheduled st) in
  mkState (foldr push_back (pending st) (due.*2)) (in_progress st)
          (filter (fun e => ¬ e.1 <= now) (scheduled st))
          (filter (fun e => ¬ e.1 <= now) (retry st))
          (dead st) (Z.max now (clock st)).

(** The latest due time of the messages waiting in [retry] and
    [scheduled]. *)
Definition latest (st : state) : Time :=
  foldr Z.max (clock st) ((retry st ++ scheduled st).*1).

(** A broker that holds the single message [m], ready in its queue. *)
Definition enqueued (m : base.TaskMessage) (now : Time) : state :=
  mkState {[base.Queue m := [m]]} [] [] [] [] now.

(** [id] has reached the dead set. *)
Definition is_dead (id : string) (st : state) : bool :=
  bool_decide (id ∈ (base.ID <$> (dead st).*2)).

End Broker.

(** ** Attempts at a task *)

Section Attempts.

Variable ParseDuration : string -> option Duration.
Variable ParseRFC3339 : string -> option Time.
Variable p : processor Broker.state.

(** One delivery of the task of queue [q]: once the retry delay is over
    the scheduler promotes the message, [exec] dequeues it and the worker
    handles the outcome of the handler. *)
Definition attempt (q : string) (o : Oracle) (st : Broker.state)
  : Broker.state :=
  let st := Broker.promote (Broker.latest st) st in
  match rdb.Dequeue (p_rdb p) [q] st with
  | (st, inl msg) =>
      broker (worker ParseDuration ParseRFC3339 p o msg (mkWorld st []))
  | (st, inr _) => st
  end.

(** As many attempts as there are oracles. *)
Definition attempts (q : string) (os : list Oracle) (st : Broker.state)
  : Broker.state :=
  foldl (fun st o => attempt q o st) st os.

End Attempts.

(** The calls of broker operations among some effects. *)
Definition calls_of (t : list Event) : list Call :=
  omap (fun e => match e with EvCall c => Some c | _ => None end) t.

(** ** Vocabulary of the properties, and sample data *)

(** The greatest common divisor of a list of weights. *)
Definition gcd_list (xs : list Z) : Z := foldr Z.gcd 0 xs.

(** The greatest common divisor of all weights of a queue configuration,
    and the configuration with every weight divided by it. *)
Definition gcd_of_weights (W : gmap string Z) : Z :=
  gcd_list (map_to_list W).*2.

Definition divided_by_gcd (W : gmap string Z) : gmap string Z :=
  (fun x => x / gcd_of_weights W) <$> W.

(** Every weight is a positive [int]. *)
Definition positive_weights (W : gmap string Z) : Prop :=
  map_Forall (fun _ x => 0 < x <= Int.max_int) W.

Definition sample_weights : gmap string Z :=
  <["critical" := 6]> (<["default" := 4]> (<["low" := 2]> ∅)).

(** The elements of a list, each kept at its first occurrence. *)
Fixpoint dedup_first (l : list string) : list string :=
  match l with
  | [] => []
  | x :: rest => x :: filter (fun y => y ≠ x) (dedup_first rest)
  end.

(** A processor over the broker of the specification, with the normalized
    sample weights, whose handler fails with [boom]. *)
Definition sample_processor : processor Broker.state :=
  {| p_rdb := Broker.ops;
     p_handler := fun _ _ => Returns (Some (errorString "boom"));
     queueConfig := <["critical" := 3]> (<["default" := 2]> (<["low" := 1]> ∅));
     orderedQueues := None;
     p_retryDelayFunc := fun n _ _ => (n + 1) * Second;
     errHandler := Some UserErrorHandler;
     semaCap := 2 |}.

Definition sample_rand : Rand := fun k => (7 * k + 3)%nat.

(** The reading of the specification: with a timeout and a deadline the
    context is cancelled when the deadline is reached, and not before. *)
Definition deadline_overrides_timeout : Prop :=
  forall (ParseDuration : string -> option Duration)
         (ParseRFC3339 : string -> option Time)
         (now : Time) (msg : base.TaskMessage)
         (timeout : Duration) (deadline : Time),
    ParseDuration (base.Timeout msg) = Some timeout -> timeout ≠ 0 ->
    ParseRFC3339 (base.Deadline msg) = Some deadline -> deadline ≠ 0 ->
    forall t,
      expired (createContext ParseDuration ParseRFC3339 now msg).1 t
      = (deadline <=? t).

(** Instants count from the zero [time.Time], year 1; this is
    1970-01-01T00:00:00Z. *)
Definition unix_epoch : Time := 62135596800 * Second.

(** Parsers that know the strings of the sample messages. *)
Definition sample_ParseDuration (s : string) : option Duration :=
  if decide (s = "1s") then Some Second
  else if decide (s = "0s") then Some 0
  else None.

Definition sample_ParseRFC3339 (s : string) : option Time :=
  if decide (s = "1970-01-01T00:00:10Z") then Some (unix_epoch + 10 * Second)
  else if decide (s = "0001-01-01T00:00:00Z") then Some 0
  else None.

(** A message with a timeout of one second and a deadline ten seconds
    after the epoch. *)
Definition sample_msg : base.TaskMessage :=
  {| base.Type_ := "send_email"; base.Payload := ∅; base.ID := "bpt0001";
     base.Queue := "default"; base.Retry := 2; base.Retried := 0;
     base.ErrorMsg := ""; base.Timeout := "1s";
     base.Deadline := "1970-01-01T00:00:10Z" |}.

Definition quitting : Oracle :=
  {| allow := true; dispatch := SelectSema; wait := SelectQuit;
     tStats := unix_epoch; tContext := unix_epoch; tRetry := unix_epoch |}.

(** The handler fails whenever it is called: it returns a non-nil error
    or panics. *)
Definition failing (h : Handler) : Prop :=
  forall ctx task, perform ctx task h ≠ None.

(** Where the single message [m] of a broker is after [n] failed
    attempts: ready in its queue before the first; in the retry set with
    [retried = n] while [n <= retry]; in the dead set afterwards. *)
Inductive progress (m : base.TaskMessage) : nat -> Broker.state -> Prop :=
| progress_fresh now :
    progress m 0 (Broker.enqueued m now)
| progress_waiting n t e c :
    (0 < n)%nat -> Z.of_nat n <= base.Retry m ->
    progress m n
      (Broker.mkState {[base.Queue m := []]} [] []
         [(t, Broker.with_retried (Z.of_nat n) e m)] [] c)
| progress_dead n d e c :
    base.Retry m < Z.of_nat n ->
    progress m n
      (Broker.mkState {[base.Queue m := []]} [] [] []
         [(d, Broker.with_retried (base.Retry m) e m)] c).

Definition receiving : Oracle :=
  {| allow := true; dispatch := SelectSema; wait := SelectResult;
     tStats := unix_epoch; tContext := unix_epoch; tRetry := unix_epoch |}.

(** The reading of the specification: calling [stop] or [terminate] again
    changes nothing and does not panic. *)
Definition shutdown_idempotent : Prop :=
  forall (cap w : nat) (o : Shutdown.op) (n : nat),
    let once := Shutdown.call cap o (Shutdown.started w) in
    let again := Shutdown.calls cap (replicate (S (S n)) o) (Shutdown.started w) in
    Shutdown.panicked again = false
    ∧ Shutdown.state_of again = Shutdown.state_of once.

(** The number of calls of [terminate] among [os]. *)
Definition terminations (os : list Shutdown.op) : nat :=
  length (filter (fun o => o = Shutdown.Terminate) os).

(** The processor has been stopped: [p.once] is done, [p.abort] is closed
    and one value went through [p.done]. *)
Definition stopped (st : Shutdown.state) : Prop :=
  Shutdown.once st = Shutdown.OnceDone
  ∧ Shutdown.abortClosed st = true
  ∧ Shutdown.doneSent st = 1%nat
  ∧ Shutdown.loopRunning st = false.

(** Modelled from the spec: the configuration options of section 6, among
    them [ShutdownTimeout] with its default of 8 seconds ([None] when it
    is not configured).  The processor declares no such option. *)
Record Config : Type := {
  cfgConcurrency : Z;
  cfgQueues : gmap string Z;
  cfgStrictPriority : bool;
  cfgShutdownTimeout : option Duration
}.

Definition configured_ShutdownTimeout (c : Config) : Duration :=
  default (8 * Second) (cfgShutdownTimeout c).

(** What [newProcessor] gets to see of a configuration. *)
Definition info_of (c : Config) : base.ProcessInfo :=
  {| base.Concurrency := cfgConcurrency c;
     base.Queues := cfgQueues c;
     base.StrictPriority := cfgStrictPriority c |}.

(** The reading of the specification: [terminate] arms the timer with the
    configured [ShutdownTimeout]. *)
Definition ShutdownTimeout_configurable : Prop :=
  forall (c : Config) B (r : rdb.RDB B) it1 it2 it3 fn eh (p : processor B)
         (w : nat),
    newProcessor r (info_of c) it1 it2 it3 fn eh = Ok p ->
    Shutdown.timers
      (Shutdown.state_of (Shutdown.terminate (semaCap p) (Shutdown.started w)))
    = [configured_ShutdownTimeout c].

(** A configuration that asks for a drain window of 30 seconds. *)
Definition sample_config : Config :=
  {| cfgConcurrency := 2;
     cfgQueues := sample_weights;
     cfgStrictPriority := false;
     cfgShutdownTimeout := Some (30 * Second) |}.

Definition sample_built : processor Broker.state :=
  {| p_rdb := Broker.ops;
     p_handler := fun _ _ => Returns (Some (errorString "handler not set"));
     queueConfig := divided_by_gcd sample_weights;
     orderedQueues := None;
     p_retryDelayFunc := fun n _ _ => (n + 1) * Second;
     errHandler := None;
     semaCap := 2 |}.

Definition is_retryOption (o : client.Option) : bool :=
  match o with client.retryOption _ => true | _ => false end.

Definition is_queueOption (o : client.Option) : bool :=
  match o with client.queueOption _ => true | _ => false end.

(** ** The client: enqueueing *)

Module Client.

(** The operation of [*rdb.RDB] that a method of [Client] ends in. *)
Inductive Call : Type :=
| CallEnqueue (msg : base.TaskMessage)
| CallSchedule (msg : base.TaskMessage) (processAt : Time).

(** [c.enqueue(msg, t)]; [now] is its reading of [time.Now()], and
    [now.After(t)] is [t < now]. *)
Definition enqueue (now : Time) (msg : base.TaskMessage) (t : Time) : Call :=
  if t <? now then CallEnqueue msg else CallSchedule msg t.

Section Methods.

Variable DurationString : Duration -> string.
Variable FormatRFC3339 : Time -> string.

(** [c.EnqueueAt(t, task, opts...)]; [id] is [xid.New()]. *)
Definition EnqueueAt (id : string) (now : Time) (t : Time) (task : Task)
    (opts : list client.Option) : Call :=
  enqueue now (client.EnqueueAt_msg DurationString FormatRFC3339 id task opts) t.

(** [c.Enqueue(task, opts...)]: [now1] is read by [Enqueue] itself and
    [now2], later, by [enqueue]. *)
Definition Enqueue (id : string) (now1 now2 : Time) (task : Task)
    (opts : list client.Option) : Call :=
  EnqueueAt id now2 now1 task opts.

(** [c.EnqueueIn(d, task, opts...)]. *)
Definition EnqueueIn (id : string) (now1 now2 : Time) (d : Duration)
    (task : Task) (opts : list client.Option) : Call :=
  EnqueueAt id now2 (now1 + d) task opts.

End Methods.

End Client.

(** ** More vocabulary of the properties *)

(** The number of events of a trace that satisfy [f]. *)
Fixpoint count (f : Event -> bool) (t : list Event) : nat :=
  match t with
  | [] => 0%nat
  | e :: rest => ((if f e then 1 else 0) + count f rest)%nat
  end.

Definition is_acquire (e : Event) : bool :=
  match e with EvAcquire => true | _ => false end.

Definition is_release (e : Event) : bool :=
  match e with EvRelease => true | _ => false end.

Definition is_add_stats (e : Event) : bool :=
  match e with EvAddWorkerStats _ _ => true | _ => false end.

Definition is_delete_stats (e : Event) : bool :=
  match e with EvDeleteWorkerStats _ => true | _ => false end.

(** A call of [Requeue], [Done], [Retry] or [Kill]. *)
Definition is_transition_call (e : Event) : bool :=
  match e with
  | EvCall (CallRequeue _) | EvCall (CallDone _)
  | EvCall (CallRetry _ _ _) | EvCall (CallKill _ _) => true
  | _ => false
  end.

(** The requests sent to the syncer among some effects. *)
Definition syncs_of (t : list Event) : list Call :=
  omap (fun e => match e with EvSync c => Some c | _ => None end) t.

(** The error, if any, that the broker returns for a state transition. *)
Definition call_error {B} (r : rdb.RDB B) (c : Call) (b : B) : option error :=
  match c with
  | CallRequeue msg => (rdb.Requeue r msg b).2
  | CallDone msg => (rdb.Done r msg b).2
  | CallRetry msg retryAt errMsg => (rdb.Retry r msg retryAt errMsg b).2
  | CallKill msg errMsg => (rdb.Kill r msg errMsg b).2
  | _ => None
  end.

(** The transition that a worker makes for [msg] on the result [res] of
    the handler. *)
Definition routed {B} (p : processor B) (o : Oracle) (msg : base.TaskMessage)
    (res : option error) : Call :=
  match res with
  | None => CallDone msg
  | Some resErr =>
      if base.Retried msg >=? base.Retry msg
      then CallKill msg (Error resErr)
      else CallRetry msg
             (tRetry o + p_retryDelayFunc p (base.Retried msg) resErr
                           (NewTask (base.Type_ msg) (base.Payload msg)))
             (Error resErr)
  end.

(** The bound that a timeout string, or a deadline string, puts on a
    context created at [now]: none if it does not parse or is zero. *)
Definition timeout_bound (ParseDuration : string -> option Duration)
    (now : Time) (msg : base.TaskMessage) : option Time :=
  match ParseDuration (base.Timeout msg) with
  | Some d => if d =? 0 then None else Some (now + d)
  | None => None
  end.

Definition deadline_bound (ParseRFC3339 : string -> option Time)
    (msg : base.TaskMessage) : option Time :=
  match ParseRFC3339 (base.Deadline msg) with
  | Some t => if t =? 0 then None else Some t
  | None => None
  end.

(** The earlier of two bounds, each of which may be absent. *)
Definition earliest (a b : option Time) : option Time :=
  match a, b with
  | Some x, Some y => Some (Z.min x y)
  | Some x, None => Some x
  | None, b => b
  end.

(** The value of the last option of a kind, if there is one. *)
Definition last_retry (opts : list client.Option) : option Z :=
  last (omap (fun o => match o with client.retryOption n => Some n | _ => None end) opts).

Definition last_queue (opts : list client.Option) : option string :=
  last (omap (fun o => match o with client.queueOption q => Some q | _ => None end) opts).

Definition last_timeout (opts : list client.Option) : option Duration :=
  last (omap (fun o => match o with client.timeoutOption d => Some d | _ => None end) opts).

Definition last_deadline (opts : list client.Option) : option Time :=
  last (omap (fun o => match o with client.deadlineOption t => Some t | _ => None end) opts).

#[global] Instance client_Option_eq_dec : EqDecision client.Option.
Proof. solve_decision. Defined.

(** An option as the exported functions of the client build it. *)
Inductive exported (ToLower : string -> string) : client.Option -> Prop :=
| exported_MaxRetry n : exported ToLower (client.MaxRetry n)
| exported_Queue name : exported ToLower (client.Queue ToLower name)
| exported_Timeout d : exported ToLower (client.Timeout d)
| exported_Deadline t : exported ToLower (client.Deadline t).

(** A processor after [newProcessor], before [start]: nobody receives on
    [p.done]. *)
Definition created : Shutdown.state :=
  Shutdown.mkState Shutdown.OnceIdle false false 0 false [] 0 0 0 0.

(** A processor with a queue of weight zero besides the default queue. *)
Definition zero_weight_processor : processor Broker.state :=
  {| p_rdb := Broker.ops;
     p_handler := fun _ _ => Returns None;
     queueConfig := <["default" := 1]> {["low" := 0]};
     orderedQueues := None;
     p_retryDelayFunc := fun _ _ _ => Second;
     errHandler := None;
     semaCap := 1 |}.

(** Formatters that agree with the sample parsers. *)
Definition sample_DurationString (d : Duration) : string :=
  if decide (d = Second) then "1s" else if decide (d = 0) then "0s" else "?".

Definition sample_FormatRFC3339 (t : Time) : string :=
  if decide (t = unix_epoch + 10 * Second) then "1970-01-01T00:00:10Z"
  else if decide (t = 0) then "0001-01-01T00:00:00Z" else "?".

Definition is_handle_error (e : Event) : bool :=
  match e with EvHandleError _ _ _ _ => true | _ => false end.

(** What a worker does between registering its cancel function and its
    deferred function, on a broker in state [b]: on a result of the
    handler, the error handler if one is set and the handler failed, the
    log line of [kill], the transition, and a log line with a request to
    the syncer if the broker fails. *)
Definition await_events {B} (p : processor B) (o : Oracle)
    (msg : base.TaskMessage) (b : B) (ctx : Context) (task : Task)
  : list Event :=
  match wait o with
  | SelectQuit => [EvLog Warn "Quitting worker. task id=%s"]
  | SelectResult =>
      let res := perform ctx task (p_handler p) in
      let c := routed p o msg res in
      match res, errHandler p with
      | Some resErr, Some _ =>
          [EvHandleError task resErr (base.Retried msg) (base.Retry msg)]
      | _, _ => []
      end
      ++ match c with
         | CallKill _ _ => [EvLog Warn "Retry exhausted for task id=%s"]
         | _ => []
         end
      ++ [EvCall c]
      ++ match call_error (p_rdb p) c b with
         | Some _ => [EvLog Warn "%s; Will retry syncing"; EvSync c]
         | None => []
         end
  end.

(** * Properties *)

(** ** Arithmetic of [gcd] *)

Lemma wrap_id z : Int.in_range z -> Int.wrap z = z.
Proof.
  unfold Int.in_range, Int.wrap, Int.min_int, Int.max_int. intros Hz.
  rewrite Z.mod_small; lia.
Qed.

Lemma fn_is_gcd x y : 0 <= x -> 0 <= y -> fn x y = Z.gcd x y.
Proof.
  funelim (fn x y); intros Hx Hy.
  - match goal with IH : _ -> _ -> fn _ _ = Z.gcd _ _ |- _ => rewrite IH end.
    + unfold Int.rem. rewrite Z.rem_mod_nonneg by lia.
      rewrite (Z.gcd_comm y), Z.gcd_mod by lia. apply Z.gcd_comm.
    + lia.
    + unfold Int.rem. rewrite Z.rem_mod_nonneg by lia.
      apply Z.mod_pos_bound; lia.
  - assert (y = 0) as -> by lia. rewrite Z.gcd_0_r. lia.
Qed.

Lemma gcd_list_nonneg xs : 0 <= gcd_list xs.
Proof. destruct xs; simpl; [lia | apply Z.gcd_nonneg]. Qed.

Lemma gcd_list_perm xs ys : xs ≡ₚ ys -> gcd_list xs = gcd_list ys.
Proof.
  induction 1; simpl; try congruence.
  rewrite !Z.gcd_assoc. f_equal. apply Z.gcd_comm.
Qed.

Lemma gcd_list_divide xs x : x ∈ xs -> (gcd_list xs | x).
Proof.
  induction 1 as [x xs | x y xs _ IH]; simpl.
  - apply Z.gcd_divide_l.
  - etransitivity; [apply Z.gcd_divide_r | exact IH].
Qed.

Lemma gcd_list_pos xs : xs ≠ [] -> Forall (fun x => 0 < x) xs -> 0 < gcd_list xs.
Proof.
  destruct xs as [| x xs]; [done |]. intros _ Hpos.
  apply Forall_cons in Hpos as [Hx _]. simpl.
  pose proof (Z.gcd_nonneg x (gcd_list xs)).
  destruct (decide (Z.gcd x (gcd_list xs) = 0)) as [H0 |]; [| lia].
  apply Z.gcd_eq_0_l in H0. lia.
Qed.

Lemma gcd_loop_spec xs res :
  Forall (fun x => 0 < x) xs -> 0 < res ->
  gcd_loop xs res = Z.gcd res (gcd_list xs).
Proof.
  revert res. induction xs as [| x xs IH]; intros res Hpos Hres; simpl.
  - rewrite Z.gcd_0_r. lia.
  - apply Forall_cons in Hpos as [Hx Hpos].
    rewrite fn_is_gcd by lia.
    rewrite Z.gcd_assoc, (Z.gcd_comm res x).
    destruct (Z.eqb_spec (Z.gcd x res) 1) as [-> | Hne].
    + symmetry. apply Z.gcd_1_l.
    + apply IH; [done |].
      pose proof (Z.gcd_nonneg x res).
      destruct (decide (Z.gcd x res = 0)) as [H0 |]; [| lia].
      apply Z.gcd_eq_0_l in H0. lia.
Qed.

Lemma gcd_spec xs :
  xs ≠ [] -> Forall (fun x => 0 < x) xs -> gcd xs = Ok (gcd_list xs).
Proof.
  destruct xs as [| x xs]; [done |]. intros _ Hpos. unfold gcd.
  rewrite gcd_loop_spec; [| done | by apply Forall_cons in Hpos as [? _]].
  f_equal. simpl. rewrite Z.gcd_assoc, Z.gcd_diag.
  pose proof (proj1 (Forall_cons _ _ _) Hpos) as [Hx _].
  rewrite Z.abs_eq by lia. done.
Qed.

(** Dividing every element by a common divisor divides the gcd. *)
Lemma gcd_list_div xs d :
  0 < d -> Forall (fun x => (d | x)) xs ->
  gcd_list ((fun x => x / d) <$> xs) * d = gcd_list xs.
Proof.
  intros Hd. induction 1 as [| x xs [k ->] _ IH]; simpl; [done |].
  rewrite Z.div_mul by lia.
  rewrite <- (Z.gcd_mul_mono_r_nonneg k _ d) by lia.
  f_equal. exact IH.
Qed.

(** ** [normalizeQueueCfg] *)

Lemma divide_all_spec (f : Z -> Z) it d res :
  (forall x, Int.quo x d = Ok (f x)) ->
  NoDup it.*1 ->
  (forall q, q ∈ it.*1 -> res !! q = None) ->
  divide_all it d res = Ok (res ∪ list_to_map (prod_map id f <$> it)).
Proof.
  intros Hf. revert res.
  induction it as [| [q x] it IH]; intros res Hnd Hfresh; simpl.
  - by rewrite (right_id_L ∅ (∪)).
  - rewrite Hf. simpl. apply NoDup_cons in Hnd as [Hq Hnd].
    rewrite IH; [| done |].
    + f_equal. rewrite <- insert_union_l.
      rewrite insert_union_r; [done |]. apply Hfresh. simpl. left.
    + intros q' Hq'. rewrite lookup_insert_ne.
      * apply Hfresh. simpl. by right.
      * intros <-. by apply Hq.
Qed.

Lemma fst_prod_map {A B} (f : A -> B) (l : list (string * A)) :
  (prod_map id f <$> l).*1 = l.*1.
Proof. induction l as [| [q x] l IH]; simpl; [done | by f_equal]. Qed.

Lemma snd_prod_map {A B} (f : A -> B) (l : list (string * A)) :
  (prod_map id f <$> l).*2 = f <$> l.*2.
Proof. induction l as [| [q x] l IH]; simpl; [done | by f_equal]. Qed.

Lemma ranges_weights (W : gmap string Z) it :
  ranges W it -> it.*2 ≡ₚ (map_to_list W).*2.
Proof. unfold ranges. by intros ->. Qed.

Lemma positive_weights_list W :
  positive_weights W -> Forall (fun x => 0 < x) (map_to_list W).*2.
Proof.
  intros HW. apply Forall_forall. intros x Hx.
  apply list_elem_of_fmap in Hx as [[q y] [-> Hy]].
  apply elem_of_map_to_list in Hy. apply HW in Hy. simpl in *. lia.
Qed.

Lemma gcd_of_weights_pos W : W ≠ ∅ -> positive_weights W -> 0 < gcd_of_weights W.
Proof.
  intros Hne HW. apply gcd_list_pos; [| by apply positive_weights_list].
  intros Hnil. apply fmap_nil_inv in Hnil.
  by apply map_to_list_empty_iff in Hnil.
Qed.

(** On a non-empty configuration of positive weights the code divides
    every weight by the gcd of all of them, whatever the visiting orders. *)
Lemma normalizeQueueCfg_ok W it1 it2 :
  W ≠ ∅ -> positive_weights W -> ranges W it1 -> ranges W it2 ->
  normalizeQueueCfg it1 it2 = Ok (divided_by_gcd W).
Proof.
  intros Hne HW H1 H2. unfold normalizeQueueCfg.
  pose proof (gcd_of_weights_pos W Hne HW) as Hg.
  pose proof (positive_weights_list W HW) as Hpos.
  rewrite gcd_spec; cycle 1.
  - intros Hnil. apply ranges_weights in H1. rewrite Hnil in H1.
    apply Permutation_nil in H1. apply fmap_nil_inv in H1.
    by apply map_to_list_empty_iff in H1.
  - by rewrite (ranges_weights W it1 H1).
  - simpl. rewrite (gcd_list_perm _ _ (ranges_weights W it1 H1)).
    fold (gcd_of_weights W).
    rewrite (divide_all_spec (fun x => Int.wrap (x ÷ gcd_of_weights W))).
    + rewrite (left_id_L ∅ (∪)). unfold divided_by_gcd.
      rewrite (list_to_map_proper _ (prod_map id (fun x => Int.wrap (x ÷ gcd_of_weights W))
                                       <$> map_to_list W)).
      * rewrite list_to_map_fmap, list_to_map_to_list. f_equal.
        apply map_fmap_ext. intros q x Hx. apply HW in Hx. simpl in Hx.
        rewrite Z.quot_div_nonneg by lia.
        apply wrap_id. unfold Int.in_range, Int.min_int, Int.max_int in *.
        pose proof (Z.div_pos x (gcd_of_weights W)).
        assert (x / gcd_of_weights W <= x) by (apply Z.div_le_upper_bound; nia).
        lia.
      * rewrite fst_prod_map, H2. apply NoDup_fst_map_to_list.
      * by rewrite H2.
    + intros x. unfold Int.quo.
      destruct (Z.eqb_spec (gcd_of_weights W) 0); [lia | done].
    + rewrite H2. apply NoDup_fst_map_to_list.
    + intros. apply lookup_empty.
Qed.

Lemma divided_by_gcd_positive W :
  W ≠ ∅ -> positive_weights W -> positive_weights (divided_by_gcd W).
Proof.
  intros Hne HW q y Hy. unfold divided_by_gcd in Hy.
  apply lookup_fmap_Some in Hy as (x & <- & Hx).
  pose proof (gcd_of_weights_pos W Hne HW) as Hg.
  assert (gcd_of_weights W | x) as [k ->].
  { apply gcd_list_divide, list_elem_of_fmap. exists (q, x).
    split; [done | by apply elem_of_map_to_list]. }
  apply HW in Hx. simpl in *. rewrite Z.div_mul by lia. nia.
Qed.

Lemma divided_by_gcd_nonempty W : W ≠ ∅ -> divided_by_gcd W ≠ ∅.
Proof. intros Hne HN. apply Hne. by apply fmap_empty_inv in HN. Qed.

Lemma gcd_of_divided W :
  W ≠ ∅ -> positive_weights W -> gcd_of_weights (divided_by_gcd W) = 1.
Proof.
  intros Hne HW. pose proof (gcd_of_weights_pos W Hne HW) as Hg.
  unfold gcd_of_weights at 1, divided_by_gcd.
  rewrite map_to_list_fmap, snd_prod_map.
  apply (Z.mul_cancel_r _ _ (gcd_of_weights W)); [lia |].
  rewrite gcd_list_div; [unfold gcd_of_weights; lia | lia |].
  apply Forall_forall. intros x Hx. by apply gcd_list_divide.
Qed.

Lemma divided_by_one W : gcd_of_weights W = 1 -> divided_by_gcd W = W.
Proof.
  intros H1. unfold divided_by_gcd. rewrite H1.
  rewrite <- (map_fmap_id W) at 2. apply map_fmap_ext.
  intros q x _. apply Z.div_1_r.
Qed.

(** C5.  On every non-empty map [W] of positive weights,
    [normalizeQueueCfg] returns the map that sends each queue to its
    weight divided by the gcd of all weights of [W]; the gcd of the
    normalized weights is 1; normalizing the normalized map gives it back;
    and a processor built from [W / gcd W] is the processor built from
    [W], so that queue selection is the same for both. *)
Theorem normalizeQueueCfg_divides_by_gcd
    (W : gmap string Z) (it1 it2 : list (string * Z)) :
  W ≠ ∅ -> positive_weights W -> ranges W it1 -> ranges W it2 ->
  normalizeQueueCfg it1 it2 = Ok (divided_by_gcd W)
  ∧ gcd_of_weights (divided_by_gcd W) = 1
  ∧ (forall it1' it2',
       ranges (divided_by_gcd W) it1' -> ranges (divided_by_gcd W) it2' ->
       normalizeQueueCfg it1' it2' = Ok (divided_by_gcd W))
  ∧ (forall B (r : rdb.RDB B) (c : Z) (strict : bool) it1' it2' it3 fn eh,
       ranges (divided_by_gcd W) it1' -> ranges (divided_by_gcd W) it2' ->
       newProcessor r
         {| base.Concurrency := c; base.Queues := divided_by_gcd W;
            base.StrictPriority := strict |} it1' it2' it3 fn eh
       = newProcessor r
           {| base.Concurrency := c; base.Queues := W;
              base.StrictPriority := strict |} it1 it2 it3 fn eh).
Proof.
  intros Hne HW H1 H2.
  assert (forall it1' it2',
             ranges (divided_by_gcd W) it1' -> ranges (divided_by_gcd W) it2' ->
             normalizeQueueCfg it1' it2' = Ok (divided_by_gcd W)) as Hidem.
  { intros it1' it2' H1' H2'.
    rewrite (normalizeQueueCfg_ok (divided_by_gcd W));
      auto using divided_by_gcd_nonempty, divided_by_gcd_positive.
    f_equal. apply divided_by_one. by apply gcd_of_divided. }
  split; [by apply normalizeQueueCfg_ok |].
  split; [by apply gcd_of_divided |].
  split; [exact Hidem |].
  intros B r c strict it1' it2' it3 fn0 eh H1' H2'. unfold newProcessor.
  by rewrite (Hidem it1' it2' H1' H2'), (normalizeQueueCfg_ok W it1 it2).
Qed.

(** C10.  [gcd] reads [xs[0]] without a test: on the empty weight map
    [normalizeQueueCfg], and with it [newProcessor], panics with an index
    out of range; on every non-empty map of positive weights it returns,
    and returns a map of positive weights over the same queues. *)
Theorem normalizeQueueCfg_needs_a_queue :
  (forall it1 it2,
     ranges (∅ : gmap string Z) it1 -> ranges (∅ : gmap string Z) it2 ->
     normalizeQueueCfg it1 it2 = Panic "index out of range [0] with length 0")
  ∧ (forall B (r : rdb.RDB B) info it1 it2 it3 fn eh,
       base.Queues info = ∅ -> ranges (base.Queues info) it1 ->
       newProcessor r info it1 it2 it3 fn eh
       = Panic "index out of range [0] with length 0")
  ∧ (forall (W : gmap string Z) it1 it2,
       W ≠ ∅ -> positive_weights W -> ranges W it1 -> ranges W it2 ->
       exists N, normalizeQueueCfg it1 it2 = Ok N
                 ∧ dom N = dom W
                 ∧ map_Forall (fun _ x => 0 < x) N).
Proof.
  assert (forall it1 it2, ranges (∅ : gmap string Z) it1 ->
            normalizeQueueCfg it1 it2 = Panic "index out of range [0] with length 0")
    as Hempty.
  { intros it1 it2 H1. unfold ranges in H1. rewrite map_to_list_empty in H1.
    symmetry in H1. apply Permutation_nil in H1. by subst. }
  split; [by intros; apply Hempty |].
  split.
  - intros B r info it1 it2 it3 fn0 eh HQ H1. unfold newProcessor.
    rewrite HQ in H1. by rewrite (Hempty it1 it2 H1).
  - intros W it1 it2 Hne HW H1 H2. exists (divided_by_gcd W).
    split; [by apply normalizeQueueCfg_ok |].
    split; [apply dom_fmap_L |].
    intros q x Hx. apply (divided_by_gcd_positive W Hne HW) in Hx.
    simpl in Hx. lia.
Qed.

Lemma normalizeQueueCfg_divides_by_gcd_witness :
  normalizeQueueCfg (map_to_list sample_weights) (map_to_list sample_weights)
  = Ok (divided_by_gcd sample_weights)
  ∧ gcd_of_weights (divided_by_gcd sample_weights) = 1.
Proof.
  pose proof (normalizeQueueCfg_divides_by_gcd sample_weights
                (map_to_list sample_weights) (map_to_list sample_weights)) as H.
  destruct H as (H1 & H2 & _).
  - apply (bool_decide_unpack _). vm_compute. exact I.
  - apply (bool_decide_unpack _). vm_compute. exact I.
  - unfold ranges. reflexivity.
  - unfold ranges. reflexivity.
  - split; [exact H1 | exact H2].
Defined.

Lemma normalizeQueueCfg_needs_a_queue_witness :
  exists N,
    normalizeQueueCfg (map_to_list sample_weights) (map_to_list sample_weights)
    = Ok N
    ∧ dom N = dom sample_weights
    ∧ map_Forall (fun _ x => 0 < x) N.
Proof.
  apply (proj2 (proj2 normalizeQueueCfg_needs_a_queue) sample_weights).
  - apply (bool_decide_unpack _). vm_compute. exact I.
  - apply (bool_decide_unpack _). vm_compute. exact I.
  - unfold ranges. reflexivity.
  - unfold ranges. reflexivity.
Defined.

Example normalize_sample :
  normalizeQueueCfg (map_to_list sample_weights) (map_to_list sample_weights)
  = Ok (<["critical" := 3]> (<["default" := 2]> (<["low" := 1]> ∅))).
Proof. vm_compute. reflexivity. Qed.

(** ** Queue selection *)

Lemma elem_of_dedup_first l x : x ∈ dedup_first l <-> x ∈ l.
Proof.
  induction l as [| y l IH]; simpl; [done |].
  rewrite !elem_of_cons, list_elem_of_filter, IH.
  destruct (decide (x = y)); naive_solver.
Qed.

Lemma NoDup_dedup_first l : NoDup (dedup_first l).
Proof.
  induction l as [| y l IH]; simpl; [constructor |].
  apply NoDup_cons. split; [| by apply NoDup_filter].
  rewrite list_elem_of_filter. naive_solver.
Qed.

(** As long as fewer than [l] names are collected, the loop of [uniq] adds
    the first occurrences of the unseen names and stops at [l] names. *)
Lemma uniq_loop_spec names l seen res :
  (length res < l)%nat ->
  uniq_loop names l seen res
  = take l (res ++ filter (fun x => x ∉ seen) (dedup_first names)).
Proof.
  revert seen res. induction names as [| s names IH]; intros seen res Hlen.
  - simpl. rewrite app_nil_r. symmetry. apply take_ge. lia.
  - cbn [uniq_loop dedup_first]. destruct (decide (s ∈ seen)) as [Hs | Hs].
    + destruct (decide (length res = l)) as [? | _]; [lia |].
      rewrite IH by done. do 2 f_equal.
      rewrite filter_cons. destruct (decide (s ∉ seen)) as [? | _]; [done |].
      rewrite list_filter_filter. apply list_filter_iff.
      intros x. split; [| naive_solver]. intros Hx. split; [done |].
      by intros ->.
    + rewrite filter_cons_True by done.
      assert (filter (fun x => x ∉ seen) (filter (fun y => y ≠ s) (dedup_first names))
              = filter (fun x => x ∉ {[s]} ∪ seen) (dedup_first names)) as ->.
      { rewrite list_filter_filter. apply list_filter_iff. set_solver. }
      destruct (decide (length (res ++ [s]) = l)) as [Hl | Hl].
      * rewrite (cons_middle s res (filter _ _)), app_assoc.
        symmetry. by apply take_app_length'.
      * rewrite IH; [by rewrite <- app_assoc |].
        rewrite length_app in *. simpl in *. lia.
Qed.

Lemma uniq_spec names l :
  (0 < l)%nat -> uniq names l = take l (dedup_first names).
Proof.
  intros Hl. unfold uniq. rewrite uniq_loop_spec by (simpl; lia).
  simpl. f_equal. induction (dedup_first names) as [| x k IH]; [done |].
  rewrite filter_cons_True by set_solver. by rewrite IH.
Qed.

(** Putting [y], found at index [j], in front and [a] in its place
    rearranges the list. *)
Lemma insert_head_perm (l : list string) j a y :
  l !! j = Some y -> y :: <[j := a]> l ≡ₚ a :: l.
Proof.
  revert j. induction l as [| b l IH]; intros [| j] Hj; simplify_eq/=.
  - apply perm_swap.
  - rewrite (perm_swap b y), IH by done. apply perm_swap.
Qed.

Lemma insert_insert_perm (l : list string) i j x y :
  l !! i = Some x -> l !! j = Some y -> <[i := y]> (<[j := x]> l) ≡ₚ l.
Proof.
  revert i j. induction l as [| a l IH]; intros [| i] [| j] Hi Hj;
    simplify_eq/=; try done.
  - by apply insert_head_perm.
  - by apply insert_head_perm.
  - by rewrite IH.
Qed.

Lemma swap_in_range names i j :
  (i < length names)%nat -> (j < length names)%nat ->
  exists names', swap names i j = Ok names' ∧ names' ≡ₚ names.
Proof.
  intros Hi Hj. unfold swap.
  destruct (lookup_lt_is_Some_2 names i Hi) as [x Hx].
  destruct (lookup_lt_is_Some_2 names j Hj) as [y Hy].
  rewrite Hx, Hy. eexists. split; [done |]. by apply insert_insert_perm.
Qed.

Lemma shuffle_loop_perm r k i names :
  (i < length names)%nat ->
  exists names', shuffle_loop r k i names = Ok names' ∧ names' ≡ₚ names.
Proof.
  revert k names. induction i as [| i IH]; intros k names Hi;
    cbn [shuffle_loop].
  - by exists names.
  - destruct (swap_in_range names (S i) (Intn r k (S (S i)))) as (l1 & -> & Hl1).
    + done.
    + unfold Intn. pose proof (Nat.mod_upper_bound (r k) (S (S i))). lia.
    + cbn [mbind result_bind]. destruct (IH (S k) l1) as (l2 & -> & Hl2).
      * rewrite Hl1. lia.
      * exists l2. split; [done |]. by rewrite Hl2.
Qed.

(** [Shuffle] never panics and rearranges its argument. *)
Lemma Shuffle_perm r names :
  exists names', Shuffle r names = Ok names' ∧ names' ≡ₚ names.
Proof.
  unfold Shuffle. destruct names as [| s names]; [by exists [] |].
  apply shuffle_loop_perm. simpl. lia.
Qed.


Lemma elem_of_weighted_names it q :
  q ∈ weighted_names it <-> exists w, (q, w) ∈ it ∧ 0 < w.
Proof.
  induction it as [| [q' w'] it IH]; simpl.
  - split; [by intros ?%elem_of_nil | by intros (? & ?%elem_of_nil & _)].
  - rewrite elem_of_app, elem_of_replicate, IH. split.
    + intros [[-> Hw] | (w & Hw & Hpos)].
      * exists w'. split; [left | lia].
      * exists w. split; [by right | done].
    + intros (w & Hw & Hpos). apply elem_of_cons in Hw as [Heq | Hw].
      * simplify_eq. left. split; [done | lia].
      * right. by exists w.
Qed.





Example queues_sample :
  queues sample_processor (map_to_list (queueConfig sample_processor)) sample_rand
  = Ok ["critical"; "default"; "low"]
  ∧ queues sample_processor (map_to_list (queueConfig sample_processor))
      (fun _ => 5%nat)
    = Ok ["default"; "low"; "critical"].
Proof. split; vm_compute; reflexivity. Qed.

(** ** [createContext] *)

Example createContext_sample :
  let ctx := (createContext sample_ParseDuration sample_ParseRFC3339
                unix_epoch sample_msg).1 in
  ctx = cancelCtx (timerCtx Background (unix_epoch + Second))
  ∧ ctxDeadline ctx = Some (unix_epoch + Second)
  ∧ expired ctx (unix_epoch + Second) = true.
Proof. vm_compute. auto. Qed.

(** C2, as stated, fails: created at the epoch for [sample_msg], the
    context is cancelled one second later by the timeout, nine seconds
    before the deadline. *)
Lemma createContext_deadline_does_not_override : ¬ deadline_overrides_timeout.
Proof.
  intros H.
  specialize (H sample_ParseDuration sample_ParseRFC3339 unix_epoch sample_msg
                Second (unix_epoch + 10 * Second)).
  specialize (H eq_refl ltac:(done) eq_refl ltac:(done) (unix_epoch + Second)).
  vm_compute in H. discriminate H.
Qed.

(** C2, amended.  For a message with a non-zero timeout and a non-zero
    deadline, [createContext] derives the deadline context from the
    timeout context: the context is cancelled at the earlier of
    [now + timeout] and the deadline, which is also what its [Deadline]
    method reports; only the cancel function returned is that of the
    context derived last. *)
Theorem createContext_earlier_bound
    (ParseDuration : string -> option Duration)
    (ParseRFC3339 : string -> option Time)
    (now : Time) (msg : base.TaskMessage)
    (timeout : Duration) (deadline : Time) :
  ParseDuration (base.Timeout msg) = Some timeout -> timeout ≠ 0 ->
  ParseRFC3339 (base.Deadline msg) = Some deadline -> deadline ≠ 0 ->
  let r := createContext ParseDuration ParseRFC3339 now msg in
  ctxDeadline r.1 = Some (Z.min (now + timeout) deadline)
  ∧ (forall t, expired r.1 t = (Z.min (now + timeout) deadline <=? t))
  ∧ r.2 = r.1.
Proof.
  intros HT HT0 HD HD0. unfold createContext. rewrite HT, HD.
  destruct (Z.eqb_spec timeout 0) as [? | _]; [done |].
  destruct (Z.eqb_spec deadline 0) as [? | _]; [done |].
  cbn [negb]. unfold WithTimeout, WithDeadline, WithCancel. cbn [ctxDeadline].
  destruct (Z.ltb_spec (now + timeout) deadline) as [Hlt | Hge];
    cbn [fst snd ctxDeadline expired].
  - rewrite Z.min_l by lia. split; [done |]. split; [| done].
    intros t. by rewrite orb_false_r.
  - rewrite Z.min_r by lia. split; [done |]. split; [| done].
    intros t. rewrite orb_false_r.
    destruct (Z.leb_spec deadline t), (Z.leb_spec (now + timeout) t);
      simpl; try done; lia.
Qed.

Lemma createContext_earlier_bound_witness :
  let r := createContext sample_ParseDuration sample_ParseRFC3339
             unix_epoch sample_msg in
  ctxDeadline r.1 = Some (Z.min (unix_epoch + Second) (unix_epoch + 10 * Second))
  ∧ (forall t, expired r.1 t
               = (Z.min (unix_epoch + Second) (unix_epoch + 10 * Second) <=? t))
  ∧ r.2 = r.1.
Proof.
  apply (createContext_earlier_bound sample_ParseDuration sample_ParseRFC3339
           unix_epoch sample_msg Second (unix_epoch + 10 * Second)).
  - reflexivity.
  - vm_compute. discriminate.
  - reflexivity.
  - vm_compute. discriminate.
Defined.

(** ** The worker *)

Lemma calls_of_app t1 t2 : calls_of (t1 ++ t2) = calls_of t1 ++ calls_of t2.
Proof. unfold calls_of. apply omap_app. Qed.

Lemma trace_invoke {B R} (c : Call) (op : B -> B * R) (w : World B) :
  trace (invoke c op w).1 = trace w ++ [EvCall c].
Proof. unfold invoke. by destruct (op (broker w)). Qed.

Section Worker.

Context {B : Type}.
Variable ParseDuration : string -> option Duration.
Variable ParseRFC3339 : string -> option Time.
Variable p : processor B.

Lemma calls_of_kill msg e (w : World B) :
  calls_of (trace (kill p msg e w))
  = calls_of (trace w) ++ [CallKill msg (Error e)].
Proof.
  unfold kill, invoke, emit. cbn [broker trace].
  destruct (rdb.Kill (p_rdb p) msg (Error e) (broker w)) as [b [err |]];
    cbn [broker trace]; rewrite ?calls_of_app; cbn; by rewrite ?app_nil_r.
Qed.

Lemma calls_of_retry now msg e (w : World B) :
  calls_of (trace (retry p now msg e w))
  = calls_of (trace w)
    ++ [CallRetry msg
          (now + p_retryDelayFunc p (base.Retried msg) e
                   (NewTask (base.Type_ msg) (base.Payload msg)))
          (Error e)].
Proof.
  unfold retry, invoke, emit. cbn [broker trace].
  destruct (rdb.Retry (p_rdb p) msg _ (Error e) (broker w)) as [b [err |]];
    cbn [broker trace]; rewrite ?calls_of_app; cbn; by rewrite ?app_nil_r.
Qed.

Lemma calls_of_markAsDone msg (w : World B) :
  calls_of (trace (markAsDone p msg w)) = calls_of (trace w) ++ [CallDone msg].
Proof.
  unfold markAsDone, invoke, emit. cbn [broker trace].
  destruct (rdb.Done (p_rdb p) msg (broker w)) as [b [err |]];
    cbn [broker trace]; rewrite ?calls_of_app; cbn; by rewrite ?app_nil_r.
Qed.

(** The broker calls of a worker whose [select] receives the result of the
    handler. *)
Lemma calls_of_worker_result o msg (w : World B) :
  wait o = SelectResult ->
  let task := NewTask (base.Type_ msg) (base.Payload msg) in
  let ctx := (createContext ParseDuration ParseRFC3339 (tContext o) msg).1 in
  calls_of (trace (worker ParseDuration ParseRFC3339 p o msg w))
  = calls_of (trace w)
    ++ [match perform ctx task (p_handler p) with
        | None => CallDone msg
        | Some resErr =>
            if base.Retried msg >=? base.Retry msg
            then CallKill msg (Error resErr)
            else CallRetry msg
                   (tRetry o + p_retryDelayFunc p (base.Retried msg) resErr task)
                   (Error resErr)
        end].
Proof.
  intros Hsel. cbn zeta. unfold worker, await, handlerGoroutine.
  destruct (createContext ParseDuration ParseRFC3339 (tContext o) msg)
    as [ctx cancel].
  rewrite Hsel. cbn [fst snd emit trace broker].
  rewrite !calls_of_app. cbn [calls_of omap]. rewrite !app_nil_r.
  destruct (perform ctx _ (p_handler p)) as [resErr |].
  - destruct (base.Retried msg >=? base.Retry msg).
    + rewrite calls_of_kill. destruct (errHandler p); cbn [emit trace];
        rewrite ?calls_of_app; cbn; by rewrite ?app_nil_r.
    + rewrite calls_of_retry. destruct (errHandler p); cbn [emit trace];
        rewrite ?calls_of_app; cbn; by rewrite ?app_nil_r.
  - rewrite calls_of_markAsDone. cbn [emit trace].
    rewrite ?calls_of_app. cbn. by rewrite ?app_nil_r.
Qed.

End Worker.

(** C3.  A worker whose [select] takes the case of [p.quit] returns
    without a call of a broker operation and without a request to the
    syncer: the broker is as before, and all it does after registering the
    cancel function is to log, and then, in its deferred function, to
    delete the worker stats of its message and to release its token. *)
Theorem worker_quit_abandons {B}
    (ParseDuration : string -> option Duration)
    (ParseRFC3339 : string -> option Time)
    (p : processor B) (o : Oracle) (msg : base.TaskMessage) (w : World B) :
  wait o = SelectQuit ->
  let w' := worker ParseDuration ParseRFC3339 p o msg w in
  broker w' = broker w
  ∧ (exists mid,
       trace w' = trace w ++ mid ++ [EvDeleteWorkerStats msg; EvRelease]
       ∧ Forall (fun e => is_transition e = false) mid
       ∧ calls_of mid = [])
  ∧ calls_of (trace w') = calls_of (trace w).
Proof.
  intros Hsel. cbn zeta. unfold worker, await.
  destruct (createContext ParseDuration ParseRFC3339 (tContext o) msg)
    as [ctx cancel].
  rewrite Hsel. cbn [emit trace broker].
  split; [done |]. split.
  - exists [EvCancelationsAdd (base.ID msg) cancel;
            EvLog Warn "Quitting worker. task id=%s"].
    split; [by rewrite <- !app_assoc |].
    split; [by repeat constructor | done].
  - rewrite !calls_of_app. cbn. by rewrite !app_nil_r.
Qed.

Lemma worker_quit_abandons_witness :
  let w := mkWorld (Broker.enqueued sample_msg unix_epoch) [] in
  let w' := worker sample_ParseDuration sample_ParseRFC3339 sample_processor
              quitting sample_msg w in
  broker w' = broker w
  ∧ (exists mid,
       trace w' = trace w ++ mid ++ [EvDeleteWorkerStats sample_msg; EvRelease]
       ∧ Forall (fun e => is_transition e = false) mid
       ∧ calls_of mid = [])
  ∧ calls_of (trace w') = calls_of (trace w).
Proof.
  apply (worker_quit_abandons sample_ParseDuration sample_ParseRFC3339
           sample_processor quitting sample_msg).
  reflexivity.
Defined.

(** ** [perform] *)

(** C8.  [perform] lets no panic of the handler pass: it is a total
    function into error results; what a handler returns is returned as it
    is, and a panic with a value [v] other than nil gives the error with
    message [panic: v].  But for a handler that panics with nil, [recover]
    returns nil, the test [x != nil] fails and the result stays nil: where
    the comment of [perform] promises an error, the worker is told of a
    success and marks the message as done. *)
Theorem perform_nil_panic (ctx : Context) (task : Task) :
  perform ctx task (fun _ _ => Panics VNil) = None
  ∧ (forall B PD PT (p : processor B) o msg (w : World B),
       p_handler p = (fun _ _ => Panics VNil) ->
       wait o = SelectResult ->
       calls_of (trace (worker PD PT p o msg w))
       = calls_of (trace w) ++ [CallDone msg])
  ∧ (forall h v,
       h ctx task = Panics v -> v ≠ VNil ->
       perform ctx task h = Some (errorString ("panic: " +:+ Sprint v)))
  ∧ (forall h err, h ctx task = Returns err -> perform ctx task h = err).
Proof.
  split; [done |]. split; [| split].
  - intros B PD PT p o msg w Hh Hsel.
    rewrite (calls_of_worker_result PD PT p o msg w Hsel). cbn zeta.
    by rewrite Hh.
  - intros h v Hv Hnil. unfold perform. rewrite Hv. by destruct v.
  - intros h err Herr. unfold perform. by rewrite Herr.
Qed.

Example perform_panic_42 :
  perform Background (NewTask "send_email" ∅) (fun _ _ => Panics (VInt 42))
  = Some (errorString "panic: 42").
Proof. reflexivity. Qed.

(** ** Retry accounting *)

Section Accounting.

Variable ParseDuration : string -> option Duration.
Variable ParseRFC3339 : string -> option Time.

Lemma broker_worker_result {B} (p : processor B) o msg (w : World B) :
  wait o = SelectResult ->
  let task := NewTask (base.Type_ msg) (base.Payload msg) in
  let ctx := (createContext ParseDuration ParseRFC3339 (tContext o) msg).1 in
  broker (worker ParseDuration ParseRFC3339 p o msg w)
  = match perform ctx task (p_handler p) with
    | None => (rdb.Done (p_rdb p) msg (broker w)).1
    | Some resErr =>
        if base.Retried msg >=? base.Retry msg
        then (rdb.Kill (p_rdb p) msg (Error resErr) (broker w)).1
        else (rdb.Retry (p_rdb p) msg
                (tRetry o + p_retryDelayFunc p (base.Retried msg) resErr task)
                (Error resErr) (broker w)).1
    end.
Proof.
  intros Hsel. cbn zeta. unfold worker, await, handlerGoroutine.
  destruct (createContext ParseDuration ParseRFC3339 (tContext o) msg)
    as [ctx cancel].
  rewrite Hsel. cbn [fst snd emit trace broker].
  destruct (perform ctx _ (p_handler p)) as [resErr |].
  - destruct (base.Retried msg >=? base.Retry msg).
    + unfold kill, invoke, emit. destruct (errHandler p); cbn [broker trace];
        by destruct (rdb.Kill _ _ _ _) as [b [err |]].
    + unfold retry, invoke, emit. destruct (errHandler p); cbn [broker trace];
        by destruct (rdb.Retry _ _ _ _ _) as [b [err |]].
  - unfold markAsDone, invoke, emit. cbn [broker trace].
    by destruct (rdb.Done _ _ _) as [b [err |]].
Qed.

Lemma remove_only (m : base.TaskMessage) : Broker.remove m [m] = [].
Proof.
  unfold Broker.remove. rewrite filter_cons.
  by destruct (decide (m ≠ m)).
Qed.

Lemma Dequeue_ready q (mm : base.TaskMessage) c :
  Broker.Dequeue [q] (Broker.mkState {[q := [mm]]} [] [] [] [] c)
  = (Broker.mkState {[q := []]} [mm] [] [] [] c, inl mm).
Proof.
  unfold Broker.Dequeue. cbn [Broker.pop_first Broker.pending].
  rewrite lookup_singleton_eq.
  cbn [Broker.in_progress Broker.scheduled Broker.retry Broker.dead Broker.clock].
  by rewrite insert_singleton_eq.
Qed.

Lemma Dequeue_nothing q sc rt dd c :
  Broker.Dequeue [q] (Broker.mkState {[q := []]} [] sc rt dd c)
  = (Broker.mkState {[q := []]} [] sc rt dd c, inr rdb.ErrNoProcessableTask).
Proof.
  unfold Broker.Dequeue. cbn [Broker.pop_first Broker.pending].
  by rewrite lookup_singleton_eq.
Qed.

Lemma Kill_only (mm : base.TaskMessage) e pd sc rt dd c :
  Broker.Kill mm e (Broker.mkState pd [mm] sc rt dd c)
  = (Broker.mkState pd [] sc rt
       ((c, Broker.with_retried (base.Retried mm) e mm) :: dd) c, None).
Proof.
  unfold Broker.Kill. cbn [Broker.in_progress].
  destruct (decide (mm ∈ [mm])) as [_ | Hnot]; [| set_solver].
  by rewrite remove_only.
Qed.

Lemma Retry_only (mm : base.TaskMessage) t e pd sc rt dd c :
  Broker.Retry mm t e (Broker.mkState pd [mm] sc rt dd c)
  = (Broker.mkState pd [] sc
       ((t, Broker.with_retried (base.Retried mm + 1) e mm) :: rt) dd c, None).
Proof.
  unfold Broker.Retry. cbn [Broker.in_progress].
  destruct (decide (mm ∈ [mm])) as [_ | Hnot]; [| set_solver].
  by rewrite remove_only.
Qed.

Lemma with_retried_twice a e b e' (m : base.TaskMessage) :
  Broker.with_retried a e (Broker.with_retried b e' m) = Broker.with_retried a e m.
Proof. done. Qed.

Variable p : processor Broker.state.
Hypothesis p_ops : p_rdb p = Broker.ops.
Hypothesis p_fails : failing (p_handler p).

(** A failed attempt at a message that is ready in its queue with
    [retried = n]: it is killed if [retry <= n] and waits for its retry
    with [retried = n + 1] otherwise. *)
Lemma attempt_ready (m mm : base.TaskMessage) (n : nat) e o st c :
  wait o = SelectResult ->
  mm = Broker.with_retried (Z.of_nat n) e m ->
  Z.of_nat n <= base.Retry m ->
  Broker.promote (Broker.latest st) st
  = Broker.mkState {[base.Queue m := [mm]]} [] [] [] [] c ->
  progress m (S n) (attempt ParseDuration ParseRFC3339 p (base.Queue m) o st).
Proof.
  intros Hsel Hmm Hn Hpromote. unfold attempt. rewrite Hpromote, p_ops.
  cbn [rdb.Dequeue Broker.ops]. rewrite Dequeue_ready.
  rewrite broker_worker_result by done. cbn zeta.
  destruct (perform _ _ (p_handler p)) as [resErr |] eqn:Hperf;
    [| by apply p_fails in Hperf].
  rewrite p_ops. cbn [broker rdb.Kill rdb.Retry Broker.ops].
  rewrite Kill_only, Retry_only. cbn [fst].
  assert (base.Retry mm = base.Retry m) as -> by (by subst mm).
  assert (base.Retried mm = Z.of_nat n) as -> by (by subst mm).
  rewrite Hmm, !with_retried_twice.
  rewrite Z.geb_leb.
  destruct (Z.leb_spec (base.Retry m) (Z.of_nat n)) as [Hle | Hgt].
  - assert (Z.of_nat n = base.Retry m) as -> by lia.
    apply progress_dead. lia.
  - replace (Z.of_nat n + 1) with (Z.of_nat (S n)) by lia.
    apply progress_waiting; lia.
Qed.

Lemma with_retried_same (m : base.TaskMessage) :
  Broker.with_retried (base.Retried m) (base.ErrorMsg m) m = m.
Proof. by destruct m. Qed.

(** Each attempt of a failing handler moves the message one step on. *)
Lemma attempt_progress (m : base.TaskMessage) (n : nat) o st :
  base.Retried m = 0 -> 0 <= base.Retry m ->
  wait o = SelectResult ->
  progress m n st ->
  progress m (S n) (attempt ParseDuration ParseRFC3339 p (base.Queue m) o st).
Proof.
  intros Hm HK Hsel Hst.
  destruct Hst as [now | n t e c Hpos Hle | n d e c Hlt].
  - apply (attempt_ready m m 0 (base.ErrorMsg m) o _ (Z.max now now));
      [done | | simpl; lia | reflexivity].
    change (Z.of_nat 0) with 0. rewrite <- Hm. symmetry. apply with_retried_same.
  - apply (attempt_ready m (Broker.with_retried (Z.of_nat n) e m) n e o _
             (Z.max (Z.max t c) c)); [done.. |].
    unfold Broker.promote, Broker.latest.
    cbn [Broker.retry Broker.scheduled Broker.pending Broker.in_progress
           Broker.dead Broker.clock app fmap list_fmap fst foldr].
    rewrite !filter_cons. cbn [fst].
    destruct (decide (t <= Z.max t c)) as [_ | ?]; [| lia].
    destruct (decide (¬ t <= Z.max t c)) as [? | _]; [lia |].
    cbn. unfold Broker.push_back. cbn [base.Queue Broker.with_retried].
    by rewrite lookup_singleton_eq, insert_singleton_eq.
  - unfold attempt, Broker.promote, Broker.latest.
    cbn [Broker.retry Broker.scheduled Broker.pending Broker.in_progress
           Broker.dead Broker.clock app fmap list_fmap foldr].
    rewrite p_ops. cbn [rdb.Dequeue Broker.ops].
    rewrite !filter_nil. cbn [fmap list_fmap foldr].
    rewrite Dequeue_nothing. apply progress_dead. lia.
Qed.

Lemma attempts_progress (m : base.TaskMessage) (os : list Oracle) (n : nat) st :
  base.Retried m = 0 -> 0 <= base.Retry m ->
  Forall (fun o => wait o = SelectResult) os ->
  progress m n st ->
  progress m (n + length os)
    (attempts ParseDuration ParseRFC3339 p (base.Queue m) os st).
Proof.
  intros Hm HK Hos. revert n st.
  induction Hos as [| o os Ho _ IH]; intros n st Hst; simpl.
  - by rewrite Nat.add_0_r.
  - rewrite Nat.add_succ_r. apply (IH (S n)). by apply attempt_progress.
Qed.

Lemma progress_dead_iff (m : base.TaskMessage) (n : nat) st :
  0 <= base.Retry m ->
  progress m n st ->
  Broker.is_dead (base.ID m) st = true <-> base.Retry m + 1 <= Z.of_nat n.
Proof.
  intros HK. unfold Broker.is_dead. rewrite bool_decide_eq_true.
  destruct 1 as [now | n t e c Hpos Hle | n d e c Hlt]; cbn.
  - split; [by intros ?%elem_of_nil | lia].
  - split; [by intros ?%elem_of_nil | lia].
  - split; [lia | intros _; apply list_elem_of_singleton; done].
Qed.

End Accounting.

(** C1.  A worker that receives a non-nil error from the handler calls
    [Kill(msg, err)] if [msg.Retried >= msg.Retry] and
    [Retry(msg, now + retryDelayFunc(msg.Retried, err, task), err)]
    otherwise.  Hence, on the broker of the specification, a message
    enqueued with [retry = K >= 0] whose handler fails at every attempt is
    in the dead set after [n] attempts exactly if [K + 1 <= n]. *)
Theorem retry_or_kill
    (ParseDuration : string -> option Duration)
    (ParseRFC3339 : string -> option Time) :
  (forall B (p : processor B) (o : Oracle) (msg : base.TaskMessage)
          (w : World B) (resErr : error),
     let task := NewTask (base.Type_ msg) (base.Payload msg) in
     wait o = SelectResult ->
     perform (createContext ParseDuration ParseRFC3339 (tContext o) msg).1
       task (p_handler p) = Some resErr ->
     calls_of (trace (worker ParseDuration ParseRFC3339 p o msg w))
     = calls_of (trace w)
       ++ [if base.Retried msg >=? base.Retry msg
           then CallKill msg (Error resErr)
           else CallRetry msg
                  (tRetry o + p_retryDelayFunc p (base.Retried msg) resErr task)
                  (Error resErr)])
  ∧ (forall (p : processor Broker.state) (m : base.TaskMessage) (now : Time)
            (os : list Oracle),
       p_rdb p = Broker.ops ->
       failing (p_handler p) ->
       Forall (fun o => wait o = SelectResult) os ->
       base.Retried m = 0 ->
       0 <= base.Retry m ->
       Broker.is_dead (base.ID m)
         (attempts ParseDuration ParseRFC3339 p (base.Queue m) os
            (Broker.enqueued m now)) = true
       <-> base.Retry m + 1 <= Z.of_nat (length os)).
Proof.
  split.
  - intros B p o msg w resErr task Hsel Hperf.
    rewrite (calls_of_worker_result ParseDuration ParseRFC3339 p o msg w Hsel).
    cbn zeta. fold task. by rewrite Hperf.
  - intros p m now os Hops Hfail Hos Hm HK.
    apply (progress_dead_iff m (0 + length os)); [done |].
    apply attempts_progress; try done. constructor.
Qed.

Lemma retry_or_kill_witness :
  Broker.is_dead (base.ID sample_msg)
    (attempts sample_ParseDuration sample_ParseRFC3339 sample_processor
       (base.Queue sample_msg) [receiving; receiving; receiving]
       (Broker.enqueued sample_msg unix_epoch)) = true
  <-> base.Retry sample_msg + 1 <= Z.of_nat (length [receiving; receiving; receiving]).
Proof.
  apply (proj2 (retry_or_kill sample_ParseDuration sample_ParseRFC3339)
           sample_processor sample_msg unix_epoch
           [receiving; receiving; receiving]).
  - reflexivity.
  - intros ctx task. vm_compute. discriminate.
  - repeat constructor.
  - reflexivity.
  - vm_compute. discriminate.
Defined.

(** The second scenario of the specification: [MaxRetry = 2] and a
    handler that always fails with [boom]. *)
Example boom_three_times :
  let run os := attempts sample_ParseDuration sample_ParseRFC3339
                  sample_processor "default" os
                  (Broker.enqueued sample_msg unix_epoch) in
  Broker.is_dead "bpt0001" (run [receiving; receiving]) = false
  ∧ (Broker.retry (run [receiving; receiving])).*2
    = [Broker.with_retried 2 "boom" sample_msg]
  ∧ Broker.is_dead "bpt0001" (run [receiving; receiving; receiving]) = true
  ∧ (Broker.dead (run [receiving; receiving; receiving])).*2
    = [Broker.with_retried 2 "boom" sample_msg].
Proof. vm_compute. auto. Qed.

(** ** Shutdown *)

Example terminate_twice :
  let out := Shutdown.calls 1 [Shutdown.Terminate; Shutdown.Terminate]
               (Shutdown.started 0) in
  out = Shutdown.Blocked
          (Shutdown.mkState Shutdown.OnceDone true false 1 false
             [8 * Second; 8 * Second] 0 1 2 1)
  ∧ Shutdown.state_of (Shutdown.terminate 1 (Shutdown.started 0))
    = Shutdown.mkState Shutdown.OnceDone true false 1 false [8 * Second] 0 1 1 1
  ∧ Shutdown.panicked
      (Shutdown.fire (Shutdown.state_of (Shutdown.fire (Shutdown.state_of out))))
    = true.
Proof. vm_compute. auto. Qed.

(** C6, as stated, fails: a second [terminate] arms a second timer, calls
    the cancel functions again and then blocks on the full [p.sema]. *)
Lemma terminate_not_idempotent : ¬ shutdown_idempotent.
Proof.
  intros H. destruct (H 1%nat 0%nat Shutdown.Terminate 0%nat) as [_ Hsame].
  vm_compute in Hsame. discriminate Hsame.
Qed.

Lemma acquireAll_free n cap held :
  (held + n <= cap)%nat -> Shutdown.acquireAll n cap held = ((held + n)%nat, true).
Proof.
  revert held. induction n as [| n IH]; intros held Hle; simpl.
  - by rewrite Nat.add_0_r.
  - destruct (Nat.ltb_spec held cap); [| lia].
    rewrite IH by lia. f_equal. lia.
Qed.

Lemma stop_stopped st : stopped st -> Shutdown.stop st = Shutdown.Returned st.
Proof. intros (Honce & _). unfold Shutdown.stop. by rewrite Honce. Qed.

(** Once stopped, a call neither panics nor touches [p.abort], [p.done]
    or [p.once]; [stop] changes nothing at all and [terminate] arms one
    more timer and calls the cancel functions once more. *)
Lemma call_stopped cap o st :
  stopped st ->
  let out := Shutdown.call cap o st in
  Shutdown.panicked out = false
  ∧ stopped (Shutdown.state_of out)
  ∧ (o = Shutdown.Stop -> Shutdown.state_of out = st)
  ∧ Shutdown.timers (Shutdown.state_of out)
    = Shutdown.timers st ++ replicate (terminations [o]) (8 * Second)
  ∧ Shutdown.cancelRounds (Shutdown.state_of out)
    = (Shutdown.cancelRounds st + terminations [o])%nat.
Proof.
  intros Hst. cbn zeta. destruct o; cbn [Shutdown.call].
  - change (terminations [Shutdown.Stop]) with 0%nat.
    rewrite stop_stopped by done. cbn.
    rewrite app_nil_r, Nat.add_0_r. done.
  - change (terminations [Shutdown.Terminate]) with 1%nat.
    unfold Shutdown.terminate, Shutdown.drain. rewrite stop_stopped by done.
    destruct Hst as (H1 & H2 & H3 & H4).
    destruct (Shutdown.acquireAll cap cap _) as [held [|]]; cbn;
      (split; [done |]); (split; [done |]); (split; [done |]);
      (split; [done | lia]).
Qed.

Lemma calls_single cap o st : Shutdown.calls cap [o] st = Shutdown.call cap o st.
Proof. cbn. by destruct (Shutdown.call cap o st). Qed.

Lemma calls_cons cap o o' os st :
  Shutdown.panicked (Shutdown.call cap o st) = false ->
  Shutdown.calls cap (o :: o' :: os) st
  = Shutdown.calls cap (o' :: os) (Shutdown.state_of (Shutdown.call cap o st)).
Proof.
  intros Hp. cbn [Shutdown.calls].
  by destruct (Shutdown.call cap o st).
Qed.

Lemma calls_stopped cap os st :
  stopped st ->
  let out := Shutdown.calls cap os st in
  Shutdown.panicked out = false
  ∧ stopped (Shutdown.state_of out)
  ∧ (Forall (fun o => o = Shutdown.Stop) os -> Shutdown.state_of out = st)
  ∧ Shutdown.timers (Shutdown.state_of out)
    = Shutdown.timers st ++ replicate (terminations os) (8 * Second)
  ∧ Shutdown.cancelRounds (Shutdown.state_of out)
    = (Shutdown.cancelRounds st + terminations os)%nat.
Proof.
  cbn zeta. revert st. induction os as [| o os IH]; intros st Hst.
  - cbn. rewrite app_nil_r, Nat.add_0_r. done.
  - destruct (call_stopped cap o st Hst) as (Hp & Hs & Hsame & Ht & Hc).
    cbn zeta in *.
    assert (terminations (o :: os) = (terminations [o] + terminations os)%nat)
      as Hcount.
    { unfold terminations. rewrite (filter_app _ [o] os). apply length_app. }
    destruct os as [| o' os].
    + rewrite calls_single.
      split; [done |]. split; [done |].
      split; [intros Hall; apply Hsame; by apply Forall_cons in Hall as [? _] |].
      done.
    + rewrite calls_cons by done.
      destruct (IH _ Hs) as (Hp' & Hs' & Hsame' & Ht' & Hc').
      split; [done |]. split; [done |]. split.
      * intros Hall. apply Forall_cons in Hall as [Ho Hall].
        rewrite Hsame' by done. by apply Hsame.
      * rewrite Ht', Ht, Hc', Hc, Hcount, replicate_add, <- app_assoc.
        split; [done | lia].
Qed.

Lemma first_call cap w o :
  let out := Shutdown.call cap o (Shutdown.started w) in
  Shutdown.panicked out = false
  ∧ stopped (Shutdown.state_of out)
  ∧ (o = Shutdown.Stop ->
     Shutdown.state_of out
     = Shutdown.state_of (Shutdown.stop (Shutdown.started w)))
  ∧ Shutdown.timers (Shutdown.state_of out)
    = replicate (terminations [o]) (8 * Second)
  ∧ Shutdown.cancelRounds (Shutdown.state_of out) = terminations [o].
Proof.
  cbn zeta. destruct o; cbn [Shutdown.call].
  - by vm_compute.
  - change (terminations [Shutdown.Terminate]) with 1%nat.
    unfold Shutdown.terminate, Shutdown.drain.
    change (Shutdown.stop (Shutdown.started w))
      with (Shutdown.Returned
              (Shutdown.mkState Shutdown.OnceDone true false 1 false [] w 0 0 0)).
    cbn [Shutdown.drained Shutdown.cancel_all Shutdown.set_timers
           Shutdown.timers Shutdown.once Shutdown.abortClosed
           Shutdown.loopRunning Shutdown.doneSent Shutdown.quitClosed
           Shutdown.workers Shutdown.cancelRounds Shutdown.restores app].
    destruct (Shutdown.acquireAll cap cap _) as [held [|]]; cbn;
      (split; [done |]); (split; [by repeat split |]); by repeat split.
Qed.

(** C6, amended.  However often and in whatever order [stop] and
    [terminate] are called on a started processor, no call panics, the
    abort channel is closed and the done signal is sent exactly once, and
    calling [stop] again has the effect of calling it once.  [terminate]
    is guarded only in its call of [stop]: every call of it arms one more
    forced-quit timer and calls the cancel functions once more. *)
Theorem stop_runs_once (cap w : nat) (os : list Shutdown.op) :
  os ≠ [] ->
  let out := Shutdown.calls cap os (Shutdown.started w) in
  Shutdown.panicked out = false
  ∧ Shutdown.abortClosed (Shutdown.state_of out) = true
  ∧ Shutdown.doneSent (Shutdown.state_of out) = 1%nat
  ∧ (Forall (fun o => o = Shutdown.Stop) os ->
     Shutdown.state_of out
     = Shutdown.state_of (Shutdown.stop (Shutdown.started w)))
  ∧ Shutdown.timers (Shutdown.state_of out)
    = replicate (terminations os) (8 * Second)
  ∧ Shutdown.cancelRounds (Shutdown.state_of out) = terminations os.
Proof.
  destruct os as [| o os]; [done |]. intros _. cbn zeta.
  destruct (first_call cap w o) as (Hp & Hs & Hsame & Ht & Hc). cbn zeta in *.
  destruct os as [| o' os].
  - rewrite calls_single. destruct Hs as (_ & Ha & Hd & _).
    split; [done |]. split; [done |]. split; [done |].
    split; [| done]. intros Hall. apply Hsame.
    by apply Forall_cons in Hall as [? _].
  - rewrite calls_cons by done.
    destruct (calls_stopped cap (o' :: os) _ Hs) as (Hp' & Hs' & Hsame' & Ht' & Hc').
    cbn zeta in *. destruct Hs' as (_ & Ha & Hd & _).
    assert (terminations (o :: o' :: os)
            = (terminations [o] + terminations (o' :: os))%nat) as Hcount.
    { unfold terminations. rewrite (filter_app _ [o] (o' :: os)). apply length_app. }
    split; [done |]. split; [done |]. split; [done |]. split.
    + intros Hall. apply Forall_cons in Hall as [Ho Hall].
      rewrite Hsame' by done. by apply Hsame.
    + rewrite Ht', Ht, Hc', Hc, Hcount, replicate_add. done.
Qed.

Lemma stop_runs_once_witness :
  let os := [Shutdown.Stop; Shutdown.Terminate; Shutdown.Stop] in
  let out := Shutdown.calls 2 os (Shutdown.started 1) in
  Shutdown.panicked out = false
  ∧ Shutdown.abortClosed (Shutdown.state_of out) = true
  ∧ Shutdown.doneSent (Shutdown.state_of out) = 1%nat
  ∧ (Forall (fun o => o = Shutdown.Stop) os ->
     Shutdown.state_of out
     = Shutdown.state_of (Shutdown.stop (Shutdown.started 1)))
  ∧ Shutdown.timers (Shutdown.state_of out)
    = replicate (terminations os) (8 * Second)
  ∧ Shutdown.cancelRounds (Shutdown.state_of out) = terminations os.
Proof.
  apply (stop_runs_once 2 1 [Shutdown.Stop; Shutdown.Terminate; Shutdown.Stop]).
  discriminate.
Defined.

(** ** The forced-quit timer *)

Lemma newProcessor_sample :
  newProcessor Broker.ops (info_of sample_config)
    (map_to_list sample_weights) (map_to_list sample_weights) map_to_list
    (fun n _ _ => (n + 1) * Second) None
  = Ok sample_built.
Proof.
  unfold newProcessor.
  rewrite (normalizeQueueCfg_ok sample_weights).
  - reflexivity.
  - apply (bool_decide_unpack _). vm_compute. exact I.
  - apply (bool_decide_unpack _). vm_compute. exact I.
  - unfold ranges. reflexivity.
  - unfold ranges. reflexivity.
Defined.

(** C7, as stated, fails: the processor built from [sample_config] arms
    its timer with 8 seconds, not with the 30 seconds configured. *)
Lemma ShutdownTimeout_not_configurable : ¬ ShutdownTimeout_configurable.
Proof.
  intros H.
  specialize (H sample_config _ _ _ _ _ _ _ _ 0%nat newProcessor_sample).
  vm_compute in H. discriminate H.
Qed.

(** C7, amended.  [terminate] arms the forced-quit timer with the constant
    8 seconds: for every processor that [newProcessor] builds, whatever
    the configuration and its [ShutdownTimeout], the timer armed by
    [terminate] on the started processor runs for [8 * time.Second]. *)
Theorem terminate_arms_8_seconds
    (c : Config) B (r : rdb.RDB B) it1 it2 it3 fn eh (p : processor B)
    (w : nat) :
  newProcessor r (info_of c) it1 it2 it3 fn eh = Ok p ->
  Shutdown.timers
    (Shutdown.state_of (Shutdown.terminate (semaCap p) (Shutdown.started w)))
  = [8 * Second]
  ∧ 8 * Second = 8000000000.
Proof.
  intros _. split; [| done].
  by destruct (first_call (semaCap p) w Shutdown.Terminate) as (_ & _ & _ & Ht & _).
Qed.

Lemma terminate_arms_8_seconds_witness :
  Shutdown.timers
    (Shutdown.state_of
       (Shutdown.terminate (semaCap sample_built) (Shutdown.started 0)))
  = [8 * Second]
  ∧ 8 * Second = 8000000000.
Proof.
  apply (terminate_arms_8_seconds sample_config _ _ _ _ _ _ _ sample_built 0%nat
           newProcessor_sample).
Defined.

(** ** Options of the client *)

Lemma MaxRetry_clamps n : client.MaxRetry n = client.retryOption (Z.max n 0).
Proof.
  unfold client.MaxRetry. destruct (Z.ltb_spec n 0); f_equal; lia.
Qed.

(** Options of other kinds leave the retry count and the queue alone. *)
Lemma foldl_keeps_retry post res :
  Forall (fun o => is_retryOption o = false) post ->
  client.retry (foldl client.applyOption res post) = client.retry res.
Proof.
  intros Hpost. revert res.
  induction Hpost as [| o post Ho _ IH]; intros res; simpl; [done |].
  rewrite IH. by destruct o.
Qed.

Lemma foldl_keeps_queue post res :
  Forall (fun o => is_queueOption o = false) post ->
  client.queue (foldl client.applyOption res post) = client.queue res.
Proof.
  intros Hpost. revert res.
  induction Hpost as [| o post Ho _ IH]; intros res; simpl; [done |].
  rewrite IH. by destruct o.
Qed.

(** C9.  [MaxRetry n] composes to the retry count [max n 0] and
    [Queue name] to the lowercased name, in the composed options and in
    the message that [EnqueueAt] builds from them; of several options of
    the same kind the last one wins, that is, the options before it do not
    matter. *)
Theorem options_normalized
    (ToLower : string -> string)
    (DurationString : Duration -> string)
    (FormatRFC3339 : Time -> string) :
  (forall n pre post,
     Forall (fun o => is_retryOption o = false) post ->
     let opts := pre ++ client.MaxRetry n :: post in
     client.retry (client.composeOptions opts) = Z.max n 0
     ∧ (forall id task,
          base.Retry (client.EnqueueAt_msg DurationString FormatRFC3339 id task opts)
          = Z.max n 0))
  ∧ (forall name pre post,
       Forall (fun o => is_queueOption o = false) post ->
       let opts := pre ++ client.Queue ToLower name :: post in
       client.queue (client.composeOptions opts) = ToLower name
       ∧ (forall id task,
            base.Queue (client.EnqueueAt_msg DurationString FormatRFC3339 id task opts)
            = ToLower name))
  ∧ (forall opts opt,
       client.composeOptions (opts ++ [opt])
       = client.applyOption (client.composeOptions opts) opt).
Proof.
  split; [| split].
  - intros n pre post Hpost opts.
    assert (client.retry (client.composeOptions opts) = Z.max n 0) as H.
    { unfold opts, client.composeOptions. rewrite foldl_app. cbn [foldl].
      rewrite foldl_keeps_retry by done. by rewrite MaxRetry_clamps. }
    split; [done | by intros; cbn].
  - intros name pre post Hpost opts.
    assert (client.queue (client.composeOptions opts) = ToLower name) as H.
    { unfold opts, client.composeOptions. rewrite foldl_app. cbn [foldl].
      by rewrite foldl_keeps_queue. }
    split; [done | by intros; cbn].
  - intros opts opt. unfold client.composeOptions. by rewrite foldl_app.
Qed.

Lemma options_normalized_witness :
  let opts := [client.MaxRetry 7; client.Queue client.ToLower_ascii "Critical"]
              ++ client.MaxRetry (-3)
              :: [client.Queue client.ToLower_ascii "LOW"; client.Timeout Second] in
  client.retry (client.composeOptions opts) = Z.max (-3) 0
  ∧ (forall id task,
       base.Retry (client.EnqueueAt_msg pretty pretty id task opts) = Z.max (-3) 0).
Proof.
  apply (proj1 (options_normalized client.ToLower_ascii pretty pretty) (-3)
           [client.MaxRetry 7; client.Queue client.ToLower_ascii "Critical"]
           [client.Queue client.ToLower_ascii "LOW"; client.Timeout Second]).
  repeat constructor.
Defined.

Example options_sample :
  client.composeOptions
    [client.MaxRetry 7; client.Queue client.ToLower_ascii "Critical";
     client.MaxRetry (-3); client.Queue client.ToLower_ascii "LOW";
     client.Timeout Second]
  = {| client.retry := 0; client.queue := "low"; client.timeout := Second;
       client.deadline := 0 |}
  ∧ client.composeOptions [] 
    = {| client.retry := 25; client.queue := "default"; client.timeout := 0;
         client.deadline := 0 |}.
Proof. split; reflexivity. Qed.

(** * Further properties of the code *)

(** ** [uniq] *)

(** Once more than [l] names are collected the loop of [uniq] never stops
    early. *)
Lemma uniq_loop_over names l seen res :
  (l < length res)%nat ->
  uniq_loop names l seen res
  = res ++ filter (fun x => x ∉ seen) (dedup_first names).
Proof.
  revert seen res. induction names as [| s names IH]; intros seen res Hlen.
  - simpl. by rewrite app_nil_r.
  - cbn [uniq_loop dedup_first]. destruct (decide (s ∈ seen)) as [Hs | Hs].
    + destruct (decide (length res = l)) as [? | _]; [lia |].
      rewrite IH by done. f_equal.
      rewrite filter_cons. destruct (decide (s ∉ seen)) as [? | _]; [done |].
      rewrite list_filter_filter. apply list_filter_iff.
      intros x. split; [| naive_solver]. intros Hx. split; [done |].
      by intros ->.
    + rewrite filter_cons_True by done.
      assert (filter (fun x => x ∉ seen) (filter (fun y => y ≠ s) (dedup_first names))
              = filter (fun x => x ∉ {[s]} ∪ seen) (dedup_first names)) as ->.
      { rewrite list_filter_filter. apply list_filter_iff. set_solver. }
      destruct (decide (length (res ++ [s]) = l)) as [Hl | Hl].
      * rewrite length_app in Hl. simpl in Hl. lia.
      * rewrite IH; [by rewrite <- app_assoc |].
        rewrite length_app. simpl. lia.
Qed.

Lemma uniq_zero names : uniq names 0 = dedup_first names.
Proof.
  destruct names as [| s names]; [done |].
  unfold uniq. cbn [uniq_loop dedup_first].
  destruct (decide (s ∈ (∅ : gset string))) as [Hs | _]; [set_solver |].
  destruct (decide (length ([] ++ [s]) = 0%nat)) as [Hl | _]; [done |].
  rewrite uniq_loop_over by (simpl; lia). simpl. f_equal.
  apply list_filter_iff. set_solver.
Qed.

(** X1.  [uniq names l] is the list of the distinct names in the order of
    their first occurrence, cut after [l] of them when [l > 0] and not cut
    at all when [l = 0] (the length test then never succeeds); it has no
    duplicates, holds only names of the input and holds all of them when
    there are at most [l] distinct ones. *)
Theorem uniq_first_occurrences (names : list string) (l : nat) :
  uniq names l
  = (if decide (l = 0%nat) then dedup_first names
     else take l (dedup_first names))
  ∧ NoDup (uniq names l)
  ∧ (forall x, x ∈ uniq names l -> x ∈ names)
  ∧ ((length (dedup_first names) <= l)%nat ->
     forall x, x ∈ names -> x ∈ uniq names l).
Proof.
  assert (uniq names l
          = if decide (l = 0%nat) then dedup_first names
            else take l (dedup_first names)) as Heq.
  { destruct (decide (l = 0%nat)) as [-> | Hl]; [apply uniq_zero |].
    apply uniq_spec. lia. }
  split; [done |]. rewrite Heq.
  destruct (decide (l = 0%nat)) as [-> | Hl].
  - split; [apply NoDup_dedup_first |].
    split; [intros x Hx; by apply (proj1 (elem_of_dedup_first names x)) |].
    intros _ x Hx. by apply (proj2 (elem_of_dedup_first names x)).
  - split.
    { eapply sublist_NoDup; [apply NoDup_dedup_first | apply sublist_take]. }
    split.
    + intros x Hx. apply (proj1 (elem_of_dedup_first names x)).
      eapply elem_of_sublist; [exact Hx | apply sublist_take].
    + intros Hlen x Hx. rewrite take_ge by done.
      by apply (proj2 (elem_of_dedup_first names x)).
Qed.

(** ** [queues] and [sortByPriority] *)

(** X2.  With exactly one queue configured, [queues] returns that queue,
    whatever its weight, the priority mode and the random generator. *)
Theorem queues_single_queue {B} (p : processor B)
    (it : list (string * Z)) (r : Rand) (q : string) (w : Z) :
  queueConfig p = {[q := w]} ->
  ranges (queueConfig p) it ->
  queues p it r = Ok [q].
Proof.
  intros Hcfg Hit. unfold ranges in Hit. rewrite Hcfg in Hit.
  rewrite map_to_list_singleton in Hit.
  apply Permutation_singleton_r in Hit. subst it.
  unfold queues. rewrite Hcfg, map_size_singleton.
  by destruct (decide (1 = 1)%nat).
Qed.

Lemma queues_single_queue_witness :
  queues
    {| p_rdb := Broker.ops;
       p_handler := fun _ _ => Returns None;
       queueConfig := {["default" := 0]};
       orderedQueues := Some ["low"; "default"];
       p_retryDelayFunc := fun _ _ _ => Second;
       errHandler := None;
       semaCap := 1 |}
    [("default", 0)] sample_rand
  = Ok ["default"].
Proof.
  apply (queues_single_queue _ _ _ "default" 0).
  - reflexivity.
  - unfold ranges. simpl. rewrite map_to_list_singleton. reflexivity.
Defined.

#[local] Instance byPriority_desc_total : Total byPriority_desc.
Proof. intros a b. unfold byPriority_desc. lia. Qed.

#[local] Instance byPriority_desc_trans : Transitive byPriority_desc.
Proof. intros a b c. unfold byPriority_desc. lia. Qed.

Lemma sortByPriority_merge_sort it :
  sortByPriority it
  = if decide (it = []) then None
    else Some (merge_sort byPriority_desc it).*1.
Proof.
  unfold sortByPriority.
  pose proof (merge_sort_Permutation byPriority_desc it) as Hperm.
  destruct (decide (it = [])) as [-> | Hne].
  - apply Permutation_nil_r in Hperm. by rewrite Hperm.
  - destruct (merge_sort byPriority_desc it) as [| a k] eqn:Hs; [| done].
    symmetry in Hperm. by apply Permutation_nil_r in Hperm.
Qed.

(** X3.  [sortByPriority] returns the queue names in an order of
    descending priority: the names of a rearrangement of the map's entries
    in which no entry has a lower priority than a later one; for the empty
    map it returns the nil slice. *)
Theorem sortByPriority_descending (it : list (string * Z)) :
  exists sorted,
    sorted ≡ₚ it
    ∧ StronglySorted (fun a b => b.2 <= a.2) sorted
    ∧ sortByPriority it = (if decide (it = []) then None else Some sorted.*1).
Proof.
  exists (merge_sort byPriority_desc it).
  split; [apply merge_sort_Permutation |].
  split; [apply (StronglySorted_merge_sort byPriority_desc) |].
  apply sortByPriority_merge_sort.
Qed.

Example sortByPriority_sample :
  sortByPriority [("low", 1); ("critical", 6); ("default", 3)]
  = Some ["critical"; "default"; "low"].
Proof. vm_compute. reflexivity. Qed.

Lemma newProcessor_ok {B} (r : rdb.RDB B) info it1 it2 it3 fn eh :
  base.Queues info ≠ ∅ ->
  positive_weights (base.Queues info) ->
  0 <= base.Concurrency info ->
  ranges (base.Queues info) it1 -> ranges (base.Queues info) it2 ->
  newProcessor r info it1 it2 it3 fn eh
  = Ok {| p_rdb := r;
          p_handler := fun _ _ => Returns (Some (errorString "handler not set"));
          queueConfig := divided_by_gcd (base.Queues info);
          orderedQueues :=
            if base.StrictPriority info
            then sortByPriority (it3 (divided_by_gcd (base.Queues info)))
            else None;
          p_retryDelayFunc := fn;
          errHandler := eh;
          semaCap := Z.to_nat (base.Concurrency info) |}.
Proof.
  intros Hne HW Hc H1 H2. unfold newProcessor.
  rewrite (normalizeQueueCfg_ok (base.Queues info)) by done.
  cbn [mbind result_bind].
  by destruct (Z.ltb_spec (base.Concurrency info) 0); [lia |].
Qed.

(** X4.  In strict-priority mode, with two or more queues of positive
    weights, the processor that [newProcessor] builds answers every call
    of [queues] with the same list, whatever the random generator: the
    queue names in an order of descending normalized weight. *)
Theorem queues_strict_priority {B} (r0 : rdb.RDB B) (info : base.ProcessInfo)
    (it1 it2 : list (string * Z)) (it3 : gmap string Z -> list (string * Z))
    (fn : retryDelayFunc) (eh : option ErrorHandler) :
  (2 <= size (base.Queues info))%nat ->
  positive_weights (base.Queues info) ->
  base.StrictPriority info = true ->
  0 <= base.Concurrency info ->
  ranges (base.Queues info) it1 -> ranges (base.Queues info) it2 ->
  (forall m, ranges m (it3 m)) ->
  exists p sorted,
    newProcessor r0 info it1 it2 it3 fn eh = Ok p
    ∧ sorted ≡ₚ map_to_list (divided_by_gcd (base.Queues info))
    ∧ StronglySorted (fun a b => b.2 <= a.2) sorted
    ∧ (forall it r, ranges (queueConfig p) it -> queues p it r = Ok sorted.*1).
Proof.
  intros Hsize HW Hstrict Hc H1 H2 H3.
  assert (base.Queues info ≠ ∅) as Hne.
  { intros Hnil. rewrite Hnil, map_size_empty in Hsize. lia. }
  eexists. exists (merge_sort byPriority_desc (it3 (divided_by_gcd (base.Queues info)))).
  split; [by apply newProcessor_ok |].
  split; [rewrite merge_sort_Permutation; apply H3 |].
  split; [apply (StronglySorted_merge_sort byPriority_desc) |].
  intros it r Hit. unfold queues. cbn [queueConfig orderedQueues].
  destruct (decide (size (divided_by_gcd (base.Queues info)) = 1%nat))
    as [Hone | _].
  { unfold divided_by_gcd in Hone. rewrite map_size_fmap in Hone. lia. }
  rewrite Hstrict, sortByPriority_merge_sort.
  destruct (decide (it3 (divided_by_gcd (base.Queues info)) = [])) as [Hnil | _];
    [| done].
  pose proof (H3 (divided_by_gcd (base.Queues info))) as Hr.
  unfold ranges in Hr. rewrite Hnil in Hr. symmetry in Hr.
  apply Permutation_nil_r in Hr. apply map_to_list_empty_iff in Hr.
  by apply divided_by_gcd_nonempty in Hr.
Qed.

Lemma queues_strict_priority_witness :
  exists p sorted,
    newProcessor Broker.ops
      {| base.Concurrency := 2; base.Queues := sample_weights;
         base.StrictPriority := true |}
      (map_to_list sample_weights) (map_to_list sample_weights) map_to_list
      (fun n _ _ => (n + 1) * Second) None = Ok p
    ∧ sorted ≡ₚ map_to_list (divided_by_gcd sample_weights)
    ∧ StronglySorted (fun a b => b.2 <= a.2) sorted
    ∧ (forall it r, ranges (queueConfig p) it -> queues p it r = Ok sorted.*1).
Proof.
  apply (queues_strict_priority Broker.ops
           {| base.Concurrency := 2; base.Queues := sample_weights;
              base.StrictPriority := true |}).
  - vm_compute. lia.
  - apply (bool_decide_unpack _). vm_compute. exact I.
  - reflexivity.
  - vm_compute. discriminate.
  - unfold ranges. reflexivity.
  - unfold ranges. reflexivity.
  - intros m. unfold ranges. reflexivity.
Defined.

(** ** [normalizeQueueCfg] on other weights *)

Lemma fn_zero_zero : fn 0 0 = 0.
Proof. reflexivity. Qed.

Lemma gcd_loop_zeros xs :
  Forall (fun x => x = 0) xs -> gcd_loop xs 0 = 0.
Proof.
  induction 1 as [| x xs -> _ IH]; [done |].
  cbn [gcd_loop]. by rewrite fn_zero_zero.
Qed.

(** X5.  On a non-empty map whose weights are all zero, [gcd] returns 0
    and [normalizeQueueCfg], and with it [newProcessor], panics with an
    integer division by zero. *)
Theorem normalizeQueueCfg_zero_weights
    (W : gmap string Z) (it1 it2 : list (string * Z)) :
  W ≠ ∅ ->
  map_Forall (fun _ x => x = 0) W ->
  ranges W it1 -> ranges W it2 ->
  gcd it1.*2 = Ok 0
  ∧ normalizeQueueCfg it1 it2 = Panic "integer divide by zero"
  ∧ (forall B (r : rdb.RDB B) c strict it3 fn eh,
       newProcessor r
         {| base.Concurrency := c; base.Queues := W; base.StrictPriority := strict |}
         it1 it2 it3 fn eh
       = Panic "integer divide by zero").
Proof.
  intros Hne HW H1 H2.
  assert (forall it, ranges W it -> it ≠ [] ∧ Forall (fun x => x = 0) it.*2)
    as Hzeros.
  { intros it Hit. unfold ranges in Hit. split.
    - intros ->. symmetry in Hit. apply Permutation_nil_r in Hit.
      by apply map_to_list_empty_iff in Hit.
    - rewrite Hit. apply Forall_forall. intros x Hx.
      apply list_elem_of_fmap in Hx as [[q y] [-> Hy]].
      apply elem_of_map_to_list in Hy. by apply HW in Hy. }
  destruct (Hzeros it1 H1) as [Hne1 Hz1]. destruct (Hzeros it2 H2) as [Hne2 _].
  assert (gcd it1.*2 = Ok 0) as Hgcd.
  { destruct it1 as [| [q x] it1]; [done |]. cbn [fmap list_fmap snd] in *.
    unfold gcd. pose proof Hz1 as Hz. apply Forall_cons in Hz as [-> _].
    by rewrite gcd_loop_zeros. }
  assert (normalizeQueueCfg it1 it2 = Panic "integer divide by zero") as Hn.
  { unfold normalizeQueueCfg. rewrite Hgcd. cbn [mbind result_bind].
    by destruct it2 as [| [q x] it2]. }
  split; [done |]. split; [done |].
  intros. unfold newProcessor. by rewrite Hn.
Qed.

Lemma normalizeQueueCfg_zero_weights_witness :
  gcd (map_to_list ({["default" := 0]} : gmap string Z)).*2 = Ok 0
  ∧ normalizeQueueCfg (map_to_list ({["default" := 0]} : gmap string Z))
      (map_to_list ({["default" := 0]} : gmap string Z))
    = Panic "integer divide by zero"
  ∧ (forall B (r : rdb.RDB B) c strict it3 fn eh,
       newProcessor r
         {| base.Concurrency := c; base.Queues := {["default" := 0]};
            base.StrictPriority := strict |}
         (map_to_list ({["default" := 0]} : gmap string Z))
         (map_to_list ({["default" := 0]} : gmap string Z)) it3 fn eh
       = Panic "integer divide by zero").
Proof.
  apply (normalizeQueueCfg_zero_weights {["default" := 0]}).
  - apply (bool_decide_unpack _). vm_compute. exact I.
  - apply (bool_decide_unpack _). vm_compute. exact I.
  - unfold ranges. reflexivity.
  - unfold ranges. reflexivity.
Defined.

(** X6.  Normalization only rescales: on a non-empty map of positive
    weights every weight is the normalized weight times the common
    divisor, without a remainder, over the same queues, so that two queues
    compare by their normalized weights as they do by their weights. *)
Theorem normalizeQueueCfg_rescales
    (W : gmap string Z) (it1 it2 : list (string * Z)) :
  W ≠ ∅ -> positive_weights W -> ranges W it1 -> ranges W it2 ->
  exists N g,
    normalizeQueueCfg it1 it2 = Ok N
    ∧ 0 < g
    ∧ dom N = dom W
    ∧ (forall q x, W !! q = Some x -> exists y, N !! q = Some y ∧ y * g = x)
    ∧ (forall q1 q2 x1 x2 y1 y2,
         W !! q1 = Some x1 -> W !! q2 = Some x2 ->
         N !! q1 = Some y1 -> N !! q2 = Some y2 ->
         (x1 <= x2 <-> y1 <= y2)).
Proof.
  intros Hne HW H1 H2.
  pose proof (gcd_of_weights_pos W Hne HW) as Hg.
  assert (forall q x, W !! q = Some x ->
            divided_by_gcd W !! q = Some (x / gcd_of_weights W)
            ∧ x / gcd_of_weights W * gcd_of_weights W = x) as Hexact.
  { intros q x Hx. split.
    - unfold divided_by_gcd. by rewrite lookup_fmap, Hx.
    - assert (gcd_of_weights W | x) as [k ->].
      { apply gcd_list_divide, list_elem_of_fmap. exists (q, x).
        split; [done | by apply elem_of_map_to_list]. }
      by rewrite Z.div_mul by lia. }
  exists (divided_by_gcd W), (gcd_of_weights W).
  split; [by apply normalizeQueueCfg_ok |]. split; [done |].
  split; [apply dom_fmap_L |]. split.
  - intros q x Hx. destruct (Hexact q x Hx) as [HN Hmul]. eauto.
  - intros q1 q2 x1 x2 y1 y2 Hx1 Hx2 Hy1 Hy2.
    destruct (Hexact q1 x1 Hx1) as [HN1 Hm1].
    destruct (Hexact q2 x2 Hx2) as [HN2 Hm2].
    rewrite HN1 in Hy1. rewrite HN2 in Hy2. simplify_eq. nia.
Qed.

Lemma normalizeQueueCfg_rescales_witness :
  exists N g,
    normalizeQueueCfg (map_to_list sample_weights) (map_to_list sample_weights)
    = Ok N
    ∧ 0 < g
    ∧ dom N = dom sample_weights
    ∧ (forall q x, sample_weights !! q = Some x ->
                   exists y, N !! q = Some y ∧ y * g = x)
    ∧ (forall q1 q2 x1 x2 y1 y2,
         sample_weights !! q1 = Some x1 -> sample_weights !! q2 = Some x2 ->
         N !! q1 = Some y1 -> N !! q2 = Some y2 ->
         (x1 <= x2 <-> y1 <= y2)).
Proof.
  apply (normalizeQueueCfg_rescales sample_weights).
  - apply (bool_decide_unpack _). vm_compute. exact I.
  - apply (bool_decide_unpack _). vm_compute. exact I.
  - unfold ranges. reflexivity.
  - unfold ranges. reflexivity.
Defined.

(** ** [createContext] in general *)

Lemma createContext_shape PD PT now msg :
  let r := createContext PD PT now msg in
  ctxDeadline r.1 = earliest (timeout_bound PD now msg) (deadline_bound PT msg)
  ∧ (forall t,
       expired r.1 t
       = match earliest (timeout_bound PD now msg) (deadline_bound PT msg) with
         | Some bound => bound <=? t
         | None => false
         end)
  ∧ r.2 = r.1
  ∧ r.1 ≠ Background.
Proof.
  cbn zeta. unfold createContext, timeout_bound, deadline_bound.
  destruct (PD (base.Timeout msg)) as [d |];
    destruct (PT (base.Deadline msg)) as [t |];
    try destruct (Z.eqb_spec d 0) as [Hd | Hd];
    try destruct (Z.eqb_spec t 0) as [Ht | Ht];
    cbn [negb earliest];
    unfold WithTimeout, WithDeadline, WithCancel; cbn [ctxDeadline];
    try destruct (Z.ltb_spec (now + d) t) as [Hlt | Hge];
    cbn [fst snd ctxDeadline expired];
    (split; [try done; f_equal; lia |]);
    (split; [| done]);
    intros t'; rewrite ?orb_false_r; try done;
    try (rewrite Z.min_l by lia; done).
  rewrite Z.min_r by lia.
  destruct (Z.leb_spec t t'), (Z.leb_spec (now + d) t'); simpl; try done; lia.
Qed.

(** X7.  For every message, [createContext] returns a context other than
    the background context together with the cancel function of that very
    context (never a nil function); the context is cancelled at the
    earliest of the bounds that the message carries, [now + timeout] for a
    timeout that parses and is not zero and the deadline for a deadline
    that parses and is not zero, and by time alone never if it carries
    neither. *)
Theorem createContext_earliest_bound
    (ParseDuration : string -> option Duration)
    (ParseRFC3339 : string -> option Time)
    (now : Time) (msg : base.TaskMessage) :
  let r := createContext ParseDuration ParseRFC3339 now msg in
  let bound := earliest (timeout_bound ParseDuration now msg)
                        (deadline_bound ParseRFC3339 msg) in
  r.1 ≠ Background
  ∧ r.2 = r.1
  ∧ ctxDeadline r.1 = bound
  ∧ (forall t, expired r.1 t = true <-> exists b, bound = Some b ∧ b <= t).
Proof.
  cbn zeta.
  destruct (createContext_shape ParseDuration ParseRFC3339 now msg)
    as (Hd & He & Hc & Hb). cbn zeta in *.
  split; [done |]. split; [done |]. split; [done |].
  intros t. rewrite He.
  destruct (earliest _ _) as [b |].
  - rewrite Z.leb_le. split; [by exists b | by intros (? & [= <-] & ?)].
  - split; [done | by intros (? & ? & _)].
Qed.

(** X8.  What the client composes arrives in the worker: if the duration
    and the time that [EnqueueAt] writes into the message parse back to
    themselves, the context that [createContext] builds for the message
    is bounded by [now + timeout], if a non-zero timeout was composed, and
    by the deadline, if a non-zero deadline was composed, the earlier of
    the two; with neither option it has no deadline. *)
Theorem createContext_of_enqueued
    (ParseDuration : string -> option Duration)
    (ParseRFC3339 : string -> option Time)
    (DurationString : Duration -> string)
    (FormatRFC3339 : Time -> string)
    (id : string) (task : Task) (opts : list client.Option) (now : Time) :
  let opt := client.composeOptions opts in
  ParseDuration (DurationString (client.timeout opt)) = Some (client.timeout opt) ->
  ParseRFC3339 (FormatRFC3339 (client.deadline opt)) = Some (client.deadline opt) ->
  let msg := client.EnqueueAt_msg DurationString FormatRFC3339 id task opts in
  let ctx := (createContext ParseDuration ParseRFC3339 now msg).1 in
  ctxDeadline ctx
  = earliest
      (if client.timeout opt =? 0 then None else Some (now + client.timeout opt))
      (if client.deadline opt =? 0 then None else Some (client.deadline opt))
  ∧ (client.timeout opt = 0 -> client.deadline opt = 0 ->
     forall t, expired ctx t = false).
Proof.
  intros opt HT HD msg ctx.
  destruct (createContext_shape ParseDuration ParseRFC3339 now msg)
    as (Hd & He & _). cbn zeta in *. fold ctx in Hd, He.
  assert (timeout_bound ParseDuration now msg
          = if client.timeout opt =? 0 then None
            else Some (now + client.timeout opt)) as Htb.
  { unfold timeout_bound, msg. cbn [client.EnqueueAt_msg base.Timeout].
    fold opt. by rewrite HT. }
  assert (deadline_bound ParseRFC3339 msg
          = if client.deadline opt =? 0 then None
            else Some (client.deadline opt)) as Hdb.
  { unfold deadline_bound, msg. cbn [client.EnqueueAt_msg base.Deadline].
    fold opt. by rewrite HD. }
  rewrite Htb, Hdb in Hd, He. split; [done |].
  intros H0 H0' t. rewrite He, H0, H0'. done.
Qed.

Lemma createContext_of_enqueued_witness :
  let opts := [client.Timeout Second; client.Deadline (unix_epoch + 10 * Second)] in
  let opt := client.composeOptions opts in
  let msg := client.EnqueueAt_msg sample_DurationString sample_FormatRFC3339
               "bpt0002" (NewTask "send_email" ∅) opts in
  let ctx := (createContext sample_ParseDuration sample_ParseRFC3339
                unix_epoch msg).1 in
  ctxDeadline ctx
  = earliest
      (if client.timeout opt =? 0 then None
       else Some (unix_epoch + client.timeout opt))
      (if client.deadline opt =? 0 then None else Some (client.deadline opt))
  ∧ (client.timeout opt = 0 -> client.deadline opt = 0 ->
     forall t, expired ctx t = false).
Proof.
  apply (createContext_of_enqueued sample_ParseDuration sample_ParseRFC3339
           sample_DurationString sample_FormatRFC3339 "bpt0002"
           (NewTask "send_email" ∅)
           [client.Timeout Second; client.Deadline (unix_epoch + 10 * Second)]
           unix_epoch).
  - vm_compute. reflexivity.
  - vm_compute. reflexivity.
Defined.

(** ** [exec] and its worker *)

Lemma count_app f t1 t2 : count f (t1 ++ t2) = (count f t1 + count f t2)%nat.
Proof. induction t1 as [| e t1 IH]; simpl; [done | rewrite IH; lia]. Qed.

Lemma syncs_of_app t1 t2 : syncs_of (t1 ++ t2) = syncs_of t1 ++ syncs_of t2.
Proof. unfold syncs_of. apply omap_app. Qed.

Section Traces.

Context {B : Type}.
Variable ParseDuration : string -> option Duration.
Variable ParseRFC3339 : string -> option Time.
Variable p : processor B.

(** The effects of a worker, one after the other. *)
Lemma worker_trace o msg (w : World B) :
  let task := NewTask (base.Type_ msg) (base.Payload msg) in
  let r := createContext ParseDuration ParseRFC3339 (tContext o) msg in
  trace (worker ParseDuration ParseRFC3339 p o msg w)
  = trace w
    ++ EvCancelationsAdd (base.ID msg) r.2
       :: await_events p o msg (broker w) r.1 task
    ++ [EvDeleteWorkerStats msg; EvRelease].
Proof.
  cbn zeta.
  unfold worker, await, handlerGoroutine, await_events, routed, call_error,
    kill, retry, markAsDone, invoke, emit.
  destruct (createContext ParseDuration ParseRFC3339 (tContext o) msg)
    as [ctx cancel].
  cbn [fst snd broker trace].
  destruct (wait o); cbn [fst snd broker trace app];
    [by rewrite <- !app_assoc |].
  destruct (perform ctx _ (p_handler p)) as [resErr |].
  - destruct (base.Retried msg >=? base.Retry msg).
    + destruct (errHandler p); cbn [broker trace];
        destruct (rdb.Kill _ _ _ _) as [b [err |]];
        cbn [fst snd broker trace app]; by rewrite <- !app_assoc.
    + destruct (errHandler p); cbn [broker trace];
        destruct (rdb.Retry _ _ _ _ _) as [b [err |]];
        cbn [fst snd broker trace app]; by rewrite <- !app_assoc.
  - destruct (rdb.Done _ _ _) as [b [err |]];
      cbn [fst snd broker trace app]; by rewrite <- !app_assoc.
Qed.

Lemma requeue_trace msg (w : World B) :
  trace (requeue p msg w)
  = trace w
    ++ EvCall (CallRequeue msg)
       :: match call_error (p_rdb p) (CallRequeue msg) (broker w) with
          | Some _ => [EvLog Err "Could not push task id=%s back to queue: %v"]
          | None => []
          end.
Proof.
  unfold requeue, invoke, emit, call_error.
  destruct (rdb.Requeue _ _ _) as [b [err |]]; cbn [fst snd broker trace];
    by rewrite <- ?app_assoc.
Qed.

(** [queues] never panics. *)
Lemma queues_ok it r : exists qnames, queues p it r = Ok qnames.
Proof.
  unfold queues.
  destruct (if decide (size (queueConfig p) = 1%nat) then head it else None)
    as [[q ?] |]; [by eexists |].
  destruct (orderedQueues p); [by eexists |].
  destruct (Shuffle_perm r (weighted_names it)) as (names & -> & _).
  by eexists.
Qed.

(** The effects of [exec] after its call of [Dequeue], which left the
    broker in state [b] and returned [res]. *)
Lemma exec_trace it r o (w : World B) :
  exists qnames w',
    queues p it r = Ok qnames
    ∧ exec ParseDuration ParseRFC3339 p it r o w = Ok w'
    ∧ let '(b, res) := rdb.Dequeue (p_rdb p) qnames (broker w) in
      trace w'
      = trace w
        ++ EvCall (CallDequeue qnames)
           :: match res with
              | inr rdb.ErrNoProcessableTask =>
                  if decide (1 < size (queueConfig p))%nat
                  then [EvSleep Second] else []
              | inr (rdb.ErrOther _) =>
                  if allow o then [EvLog Err "Dequeue error: %v"] else []
              | inl msg =>
                  match dispatch o with
                  | SelectAbort =>
                      EvCall (CallRequeue msg)
                      :: match call_error (p_rdb p) (CallRequeue msg) b with
                         | Some _ =>
                             [EvLog Err "Could not push task id=%s back to queue: %v"]
                         | None => []
                         end
                  | SelectSema =>
                      let task := NewTask (base.Type_ msg) (base.Payload msg) in
                      let c := createContext ParseDuration ParseRFC3339
                                 (tContext o) msg in
                      [EvAcquire; EvAddWorkerStats msg (tStats o);
                       EvCancelationsAdd (base.ID msg) c.2]
                      ++ await_events p o msg b c.1 task
                      ++ [EvDeleteWorkerStats msg; EvRelease]
                  end
              end.
Proof.
  destruct (queues_ok it r) as [qnames Hq]. exists qnames.
  unfold exec. rewrite Hq. cbn [mbind result_bind]. unfold invoke.
  destruct (rdb.Dequeue (p_rdb p) qnames (broker w)) as [b [msg | [| e]]].
  - destruct (dispatch o); eexists; (split; [done |]); (split; [done |]).
    + rewrite requeue_trace. cbn [trace broker]. by rewrite <- app_assoc.
    + rewrite worker_trace. cbn [emit trace broker].
      by rewrite <- !app_assoc.
  - eexists. split; [done |]. split; [done |].
    destruct (decide (1 < size (queueConfig p))%nat); cbn [emit trace];
      by rewrite <- ?app_assoc, ?app_nil_r.
  - eexists. split; [done |]. split; [done |].
    destruct (allow o); cbn [emit trace]; by rewrite <- ?app_assoc, ?app_nil_r.
Qed.

Lemma count_await_events f o msg b ctx task :
  (forall c, f (EvCall c) = false) -> (forall c, f (EvSync c) = false) ->
  (forall l s, f (EvLog l s) = false) ->
  (forall t e n k, f (EvHandleError t e n k) = false) ->
  count f (await_events p o msg b ctx task) = 0%nat.
Proof.
  intros Hc Hs Hl Hh. unfold await_events.
  destruct (wait o); cbn; [by rewrite Hl |].
  rewrite !count_app.
  destruct (perform ctx task (p_handler p)), (errHandler p);
    destruct (routed p o msg _); destruct (call_error _ _ _);
    cbn; rewrite ?Hc, ?Hs, ?Hl, ?Hh; done.
Qed.

End Traces.

(** X9.  Whatever the broker answers and whichever way the worker ends
    (done, retry, kill, a failing broker, or the forced quit), a run of
    [exec] releases as many tokens as it acquires and deletes as many
    worker stats as it adds, at most one of each; it acquires none when
    [Dequeue] returns no message or the abort channel is chosen. *)
Theorem exec_token_balance {B}
    (ParseDuration : string -> option Duration)
    (ParseRFC3339 : string -> option Time)
    (p : processor B) (it : list (string * Z)) (r : Rand) (o : Oracle)
    (w : World B) :
  exists qnames w' n,
    queues p it r = Ok qnames
    ∧ exec ParseDuration ParseRFC3339 p it r o w = Ok w'
    ∧ n = match (rdb.Dequeue (p_rdb p) qnames (broker w)).2, dispatch o with
          | inl _, SelectSema => 1%nat
          | _, _ => 0%nat
          end
    ∧ count is_acquire (trace w') = (count is_acquire (trace w) + n)%nat
    ∧ count is_release (trace w') = (count is_release (trace w) + n)%nat
    ∧ count is_add_stats (trace w') = (count is_add_stats (trace w) + n)%nat
    ∧ count is_delete_stats (trace w') = (count is_delete_stats (trace w) + n)%nat.
Proof.
  destruct (exec_trace ParseDuration ParseRFC3339 p it r o w)
    as (qnames & w' & Hq & He & Ht).
  exists qnames, w'. eexists. split; [done |]. split; [done |].
  split; [reflexivity |].
  destruct (rdb.Dequeue (p_rdb p) qnames (broker w)) as [b res].
  rewrite Ht. cbn [snd]. rewrite !count_app.
  destruct res as [msg | [| e]].
  - destruct (dispatch o).
    + destruct (call_error _ _ _); cbn; repeat split; lia.
    + cbn zeta.
      cbn [app count is_acquire is_release is_add_stats is_delete_stats].
      rewrite !count_app, !count_await_events by done. cbn. repeat split; lia.
  - destruct (decide (1 < size (queueConfig p))%nat); cbn; repeat split; lia.
  - destruct (allow o); cbn; repeat split; lia.
Qed.

(** X10.  For a message that [Dequeue] returns, a run of [exec] calls
    exactly one of [Requeue], [Done], [Retry] and [Kill], and calls none of
    them if its worker is told to quit; it calls [Requeue] exactly if the
    abort channel is chosen, and then starts no worker.  When [Dequeue]
    returns no message, its call is the only broker call. *)
Theorem exec_one_transition {B}
    (ParseDuration : string -> option Duration)
    (ParseRFC3339 : string -> option Time)
    (p : processor B) (it : list (string * Z)) (r : Rand) (o : Oracle)
    (w : World B) :
  exists qnames w',
    queues p it r = Ok qnames
    ∧ exec ParseDuration ParseRFC3339 p it r o w = Ok w'
    ∧ calls_of (trace w')
      = calls_of (trace w)
        ++ CallDequeue qnames
           :: match (rdb.Dequeue (p_rdb p) qnames (broker w)).2 with
              | inr _ => []
              | inl msg =>
                  match dispatch o, wait o with
                  | SelectAbort, _ => [CallRequeue msg]
                  | SelectSema, SelectQuit => []
                  | SelectSema, SelectResult =>
                      [routed p o msg
                         (perform
                            (createContext ParseDuration ParseRFC3339
                               (tContext o) msg).1
                            (NewTask (base.Type_ msg) (base.Payload msg))
                            (p_handler p))]
                  end
              end.
Proof.
  destruct (exec_trace ParseDuration ParseRFC3339 p it r o w)
    as (qnames & w' & Hq & He & Ht).
  exists qnames, w'. split; [done |]. split; [done |].
  destruct (rdb.Dequeue (p_rdb p) qnames (broker w)) as [b res].
  rewrite Ht. cbn [snd]. rewrite calls_of_app. f_equal.
  destruct res as [msg | [| e]].
  - destruct (dispatch o).
    + by destruct (call_error _ _ _).
    + cbn zeta. unfold await_events.
      destruct (wait o); [done |].
      change (calls_of (EvCall (CallDequeue qnames) :: ?t))
        with (CallDequeue qnames :: calls_of t). f_equal.
      rewrite !calls_of_app.
      destruct (perform _ _ (p_handler p)), (errHandler p);
        destruct (routed p o msg _); by destruct (call_error _ _ _).
  - by destruct (decide (1 < size (queueConfig p))%nat).
  - by destruct (allow o).
Qed.

(** X11.  A worker sends a request to the syncer exactly if the broker
    answers its [Done], [Retry] or [Kill] with an error, and the request
    then retries that very call, with the same message, time and error
    text; a worker that quits sends none, and a failing [Requeue] is
    logged but never handed to the syncer. *)
Theorem worker_sync_fallback {B}
    (ParseDuration : string -> option Duration)
    (ParseRFC3339 : string -> option Time)
    (p : processor B) (o : Oracle) (msg : base.TaskMessage) (w : World B) :
  let c := routed p o msg
             (perform (createContext ParseDuration ParseRFC3339 (tContext o) msg).1
                (NewTask (base.Type_ msg) (base.Payload msg)) (p_handler p)) in
  syncs_of (trace (worker ParseDuration ParseRFC3339 p o msg w))
  = syncs_of (trace w)
    ++ match wait o, call_error (p_rdb p) c (broker w) with
       | SelectResult, Some _ => [c]
       | _, _ => []
       end
  ∧ syncs_of (trace (requeue p msg w)) = syncs_of (trace w).
Proof.
  cbn zeta. split.
  - rewrite worker_trace. cbn zeta. rewrite syncs_of_app. f_equal.
    change (syncs_of (EvCancelationsAdd ?i ?f :: ?t)) with (syncs_of t).
    rewrite syncs_of_app. unfold await_events.
    destruct (wait o); [done |]. rewrite !syncs_of_app.
    destruct (perform _ _ (p_handler p)), (errHandler p);
      destruct (routed p o msg _); by destruct (call_error _ _ _).
  - rewrite requeue_trace, syncs_of_app.
    destruct (call_error _ _ _); cbn; by rewrite app_nil_r.
Qed.

(** X12.  The error handler is called at most once by a worker: exactly
    when one is set and the handler of the task failed; it is called with
    the task, the error and the retry counts of the message, and before
    the call of [Retry] or [Kill]. *)
Theorem worker_calls_error_handler {B}
    (ParseDuration : string -> option Duration)
    (ParseRFC3339 : string -> option Time)
    (p : processor B) (o : Oracle) (msg : base.TaskMessage) (w : World B) :
  let task := NewTask (base.Type_ msg) (base.Payload msg) in
  let res := perform (createContext ParseDuration ParseRFC3339 (tContext o) msg).1
               task (p_handler p) in
  let w' := worker ParseDuration ParseRFC3339 p o msg w in
  count is_handle_error (trace w')
  = (count is_handle_error (trace w)
     + match wait o, res, errHandler p with
       | SelectResult, Some _, Some _ => 1
       | _, _, _ => 0
       end)%nat
  ∧ (forall resErr h,
       wait o = SelectResult -> res = Some resErr -> errHandler p = Some h ->
       exists t1 t2,
         trace w'
         = trace w ++ t1
           ++ EvHandleError task resErr (base.Retried msg) (base.Retry msg) :: t2
         ∧ calls_of t1 = []
         ∧ calls_of t2 = [routed p o msg res]).
Proof.
  cbn zeta. split.
  - rewrite worker_trace. cbn zeta. rewrite count_app. f_equal.
    cbn [count is_handle_error]. rewrite count_app. unfold await_events.
    destruct (wait o); [done |]. rewrite !count_app.
    destruct (perform _ _ (p_handler p)), (errHandler p);
      destruct (routed p o msg _); by destruct (call_error _ _ _).
  - intros resErr h Hsel Hres Hh. rewrite worker_trace. cbn zeta.
    unfold await_events. rewrite Hsel, Hres, Hh. cbn zeta.
    eexists [_], _. split; [reflexivity |]. split; [done |].
    rewrite !calls_of_app.
    destruct (routed p o msg _); by destruct (call_error _ _ _).
Qed.

Lemma worker_calls_error_handler_witness :
  let task := NewTask (base.Type_ sample_msg) (base.Payload sample_msg) in
  let w := mkWorld (Broker.enqueued sample_msg unix_epoch) [] in
  let w' := worker sample_ParseDuration sample_ParseRFC3339 sample_processor
              receiving sample_msg w in
  exists t1 t2,
    trace w'
    = trace w ++ t1
      ++ EvHandleError task (errorString "boom") (base.Retried sample_msg)
           (base.Retry sample_msg) :: t2
    ∧ calls_of t1 = []
    ∧ calls_of t2
      = [routed sample_processor receiving sample_msg (Some (errorString "boom"))].
Proof.
  apply (proj2 (worker_calls_error_handler sample_ParseDuration
                  sample_ParseRFC3339 sample_processor receiving sample_msg
                  (mkWorld (Broker.enqueued sample_msg unix_epoch) []))
           (errorString "boom") UserErrorHandler).
  - reflexivity.
  - reflexivity.
  - reflexivity.
Defined.

(** X13.  Until a handler is set, the processor that [newProcessor]
    returns fails every task with the error [handler not set]: a worker
    that receives the result never calls [Done] but [Kill], if the retries
    of the message are used up, and [Retry] otherwise. *)
Theorem newProcessor_handler_not_set {B} (r0 : rdb.RDB B)
    (info : base.ProcessInfo) (it1 it2 : list (string * Z))
    (it3 : gmap string Z -> list (string * Z)) (fn : retryDelayFunc)
    (eh : option ErrorHandler) (p : processor B)
    (ParseDuration : string -> option Duration)
    (ParseRFC3339 : string -> option Time)
    (o : Oracle) (msg : base.TaskMessage) (w : World B) :
  newProcessor r0 info it1 it2 it3 fn eh = Ok p ->
  wait o = SelectResult ->
  calls_of (trace (worker ParseDuration ParseRFC3339 p o msg w))
  = calls_of (trace w)
    ++ [if base.Retried msg >=? base.Retry msg
        then CallKill msg "handler not set"
        else CallRetry msg
               (tRetry o + fn (base.Retried msg) (errorString "handler not set")
                             (NewTask (base.Type_ msg) (base.Payload msg)))
               "handler not set"].
Proof.
  intros Hnew Hsel. unfold newProcessor in Hnew.
  destruct (normalizeQueueCfg it1 it2) as [qcfg |]; [| done].
  cbn [mbind result_bind] in Hnew.
  destruct (base.Concurrency info <? 0); [done |].
  injection Hnew as <-.
  rewrite (calls_of_worker_result ParseDuration ParseRFC3339 _ o msg w Hsel).
  done.
Qed.

Lemma newProcessor_handler_not_set_witness :
  calls_of (trace (worker sample_ParseDuration sample_ParseRFC3339 sample_built
                     receiving sample_msg
                     (mkWorld (Broker.enqueued sample_msg unix_epoch) [])))
  = calls_of (trace (mkWorld (Broker.enqueued sample_msg unix_epoch) []))
    ++ [if base.Retried sample_msg >=? base.Retry sample_msg
        then CallKill sample_msg "handler not set"
        else CallRetry sample_msg
               (tRetry receiving
                + (fun n _ _ => (n + 1) * Second) (base.Retried sample_msg)
                    (errorString "handler not set")
                    (NewTask (base.Type_ sample_msg) (base.Payload sample_msg)))
               "handler not set"].
Proof.
  apply (newProcessor_handler_not_set Broker.ops (info_of sample_config)
           (map_to_list sample_weights) (map_to_list sample_weights) map_to_list
           (fun n _ _ => (n + 1) * Second) None sample_built).
  - exact newProcessor_sample.
  - reflexivity.
Defined.

(** ** Shutdown, further *)

(** The state in which [stop] blocks for ever on [p.done]. *)
Lemma call_created cap o :
  Shutdown.call cap o created
  = Shutdown.Blocked
      (Shutdown.mkState Shutdown.OnceRunning true false 0 false [] 0 0 0 0).
Proof. by destruct o. Qed.

Lemma call_while_blocked cap o :
  Shutdown.call cap o
    (Shutdown.mkState Shutdown.OnceRunning true false 0 false [] 0 0 0 0)
  = Shutdown.Blocked
      (Shutdown.mkState Shutdown.OnceRunning true false 0 false [] 0 0 0 0).
Proof. by destruct o. Qed.

Lemma calls_while_blocked cap os :
  os ≠ [] ->
  Shutdown.calls cap os
    (Shutdown.mkState Shutdown.OnceRunning true false 0 false [] 0 0 0 0)
  = Shutdown.Blocked
      (Shutdown.mkState Shutdown.OnceRunning true false 0 false [] 0 0 0 0).
Proof.
  induction os as [| o [| o' os] IH]; intros Hne; [done | |].
  - by rewrite calls_single, call_while_blocked.
  - rewrite calls_cons by (by rewrite call_while_blocked).
    rewrite call_while_blocked. by apply IH.
Qed.

(** X14.  On a processor whose dispatch loop was never started, [stop]
    closes the abort channel and then blocks for ever on the send to
    [p.done]; every later call of [stop] or [terminate] blocks as well
    (on the mutex of [p.once]), without a panic, and so [terminate] never
    arms its timer, never cancels a task and never calls [restore]. *)
Theorem stop_before_start_blocks (cap : nat) (os : list Shutdown.op) :
  os ≠ [] ->
  exists st,
    Shutdown.calls cap os created = Shutdown.Blocked st
    ∧ Shutdown.abortClosed st = true
    ∧ Shutdown.doneSent st = 0%nat
    ∧ Shutdown.timers st = []
    ∧ Shutdown.cancelRounds st = 0%nat
    ∧ Shutdown.restores st = 0%nat.
Proof.
  intros Hne.
  exists (Shutdown.mkState Shutdown.OnceRunning true false 0 false [] 0 0 0 0).
  split; [| by repeat split].
  destruct os as [| o [| o' os]]; [done | |].
  - by rewrite calls_single, call_created.
  - rewrite calls_cons by (by rewrite call_created).
    rewrite call_created. by apply calls_while_blocked.
Qed.

Lemma stop_before_start_blocks_witness :
  exists st,
    Shutdown.calls 2 [Shutdown.Stop; Shutdown.Terminate] created
    = Shutdown.Blocked st
    ∧ Shutdown.abortClosed st = true
    ∧ Shutdown.doneSent st = 0%nat
    ∧ Shutdown.timers st = []
    ∧ Shutdown.cancelRounds st = 0%nat
    ∧ Shutdown.restores st = 0%nat.
Proof.
  apply (stop_before_start_blocks 2 [Shutdown.Stop; Shutdown.Terminate]).
  discriminate.
Defined.

Lemma acquireAll_full n cap held :
  (held <= cap)%nat -> (cap < held + n)%nat ->
  Shutdown.acquireAll n cap held = (cap, false).
Proof.
  revert held. induction n as [| n IH]; intros held Hle Hlt; [lia |].
  cbn [Shutdown.acquireAll]. destruct (Nat.ltb_spec held cap).
  - apply IH; lia.
  - f_equal. lia.
Qed.

(** X15.  The loop of [terminate] is a barrier on the workers: it comes
    to its end, and [restore] is called, only when no worker holds a token
    of [p.sema] any more.  On a started processor on which all workers
    have returned, the first [terminate] returns with one timer armed, the
    cancel functions run once, all [cap(p.sema)] tokens sent and [restore]
    called once.  With [w > 0] workers that have not returned it blocks in
    its loop, having sent the [cap - w] tokens that fit, and has not
    called [restore]; it stays blocked as long as one of these workers has
    not returned, and when all [w] have returned the loop goes on to its
    end and [restore] is called.  The tokens sent stay in the channel, so
    that a further send on [p.sema] blocks. *)
Theorem terminate_drains (cap w : nat) :
  (0 < w <= cap)%nat ->
  Shutdown.terminate cap (Shutdown.started 0)
  = Shutdown.Returned
      (Shutdown.mkState Shutdown.OnceDone true false 1 false [8 * Second]
         0 cap 1 1)
  ∧ Shutdown.terminate cap (Shutdown.started w)
    = Shutdown.Blocked
        (Shutdown.mkState Shutdown.OnceDone true false 1 false [8 * Second]
           w (cap - w) 1 0)
  ∧ (forall k, (k < w)%nat ->
       Shutdown.resume cap
         (Nat.iter k Shutdown.worker_returns
            (Shutdown.mkState Shutdown.OnceDone true false 1 false
               [8 * Second] w (cap - w) 1 0))
       = Shutdown.Blocked
           (Shutdown.mkState Shutdown.OnceDone true false 1 false
              [8 * Second] (w - k) (cap - (w - k)) 1 0))
  ∧ Shutdown.resume cap
      (Nat.iter w Shutdown.worker_returns
         (Shutdown.mkState Shutdown.OnceDone true false 1 false [8 * Second]
            w (cap - w) 1 0))
    = Shutdown.Returned
        (Shutdown.mkState Shutdown.OnceDone true false 1 false [8 * Second]
           0 cap 1 1)
  ∧ (forall st st',
       (Shutdown.workers st + Shutdown.drained st <= cap)%nat ->
       Shutdown.terminate cap st = Shutdown.Returned st' ->
       Shutdown.workers st = 0%nat ∧ Shutdown.workers st' = 0%nat
       ∧ Shutdown.restores st' = S (Shutdown.restores st))
  ∧ Shutdown.acquireAll 1 cap cap = (cap, false).
Proof.
  intros Hw.
  assert (forall v,
            Shutdown.terminate cap (Shutdown.started v)
            = Shutdown.drain cap cap
                (Shutdown.mkState Shutdown.OnceDone true false 1 false
                   [8 * Second] v 0 1 0)) as Hterm by done.
  assert (forall k v d,
            Nat.iter k Shutdown.worker_returns
              (Shutdown.mkState Shutdown.OnceDone true false 1 false
                 [8 * Second] v d 1 0)
            = Shutdown.mkState Shutdown.OnceDone true false 1 false
                [8 * Second] (v - k) d 1 0) as Hiter.
  { intros k. induction k as [| k IH]; intros v d.
    - by rewrite Nat.sub_0_r.
    - rewrite Nat.iter_succ_r. unfold Shutdown.worker_returns at 2.
      unfold Shutdown.set_sema. cbn [Shutdown.once Shutdown.abortClosed
        Shutdown.loopRunning Shutdown.doneSent Shutdown.quitClosed
        Shutdown.timers Shutdown.workers Shutdown.drained
        Shutdown.cancelRounds Shutdown.restores].
      rewrite IH. replace (Init.Nat.pred v - k)%nat with (v - S k)%nat by lia.
      done. }
  split; [| split; [| split; [| split; [| split]]]].
  - rewrite Hterm. unfold Shutdown.drain. cbn [Shutdown.workers Shutdown.drained].
    rewrite acquireAll_free by lia. cbn.
    match goal with
    | |- context [Shutdown.set_sema _ ?d _] => replace d with cap by lia
    end.
    done.
  - rewrite Hterm. unfold Shutdown.drain. cbn [Shutdown.workers Shutdown.drained].
    rewrite acquireAll_full by lia. done.
  - intros k Hk. rewrite Hiter. unfold Shutdown.resume, Shutdown.drain.
    cbn [Shutdown.workers Shutdown.drained].
    rewrite acquireAll_full by lia. done.
  - rewrite Hiter. unfold Shutdown.resume, Shutdown.drain.
    cbn [Shutdown.workers Shutdown.drained].
    rewrite acquireAll_free by lia. cbn.
    match goal with
    | |- context [Shutdown.set_sema _ ?d _] => replace d with cap by lia
    end.
    match goal with
    | |- context [Shutdown.set_sema ?v _ _] => replace v with 0%nat by lia
    end.
    done.
  - intros st st' Hcap Hret. unfold Shutdown.terminate in Hret.
    destruct (Shutdown.stop st) as [st1 | |] eqn:Hstop; [| done | done].
    assert (Shutdown.workers st1 = Shutdown.workers st
            ∧ Shutdown.drained st1 = Shutdown.drained st
            ∧ Shutdown.restores st1 = Shutdown.restores st) as (Hw1 & Hd1 & Hr1).
    { unfold Shutdown.stop, Shutdown.stop_body in Hstop.
      destruct (Shutdown.once st); [| done | by simplify_eq].
      destruct (Shutdown.abortClosed st); [done |].
      cbn [Shutdown.close_abort Shutdown.loopRunning] in Hstop.
      destruct (Shutdown.loopRunning st); by simplify_eq. }
    unfold Shutdown.drain in Hret.
    cbn [Shutdown.workers Shutdown.drained Shutdown.cancel_all
           Shutdown.set_timers] in Hret.
    destruct (Shutdown.acquireAll cap cap _) as [held [|]] eqn:Hacq; [| done].
    injection Hret as <-. cbn. rewrite Hr1.
    destruct (decide ((Shutdown.workers st + Shutdown.drained st)%nat = 0%nat))
      as [H0 | Hn0].
    + split; [lia | split; [lia | done]].
    + rewrite acquireAll_full in Hacq by lia. done.
  - cbn [Shutdown.acquireAll]. by rewrite Nat.ltb_irrefl.
Qed.

Lemma terminate_drains_witness :
  Shutdown.terminate 2 (Shutdown.started 0)
  = Shutdown.Returned
      (Shutdown.mkState Shutdown.OnceDone true false 1 false [8 * Second]
         0 2 1 1)
  ∧ Shutdown.terminate 2 (Shutdown.started 1)
    = Shutdown.Blocked
        (Shutdown.mkState Shutdown.OnceDone true false 1 false [8 * Second]
           1 (2 - 1) 1 0)
  ∧ (forall k, (k < 1)%nat ->
       Shutdown.resume 2
         (Nat.iter k Shutdown.worker_returns
            (Shutdown.mkState Shutdown.OnceDone true false 1 false
               [8 * Second] 1 (2 - 1) 1 0))
       = Shutdown.Blocked
           (Shutdown.mkState Shutdown.OnceDone true false 1 false
              [8 * Second] (1 - k) (2 - (1 - k)) 1 0))
  ∧ Shutdown.resume 2
      (Nat.iter 1 Shutdown.worker_returns
         (Shutdown.mkState Shutdown.OnceDone true false 1 false [8 * Second]
            1 (2 - 1) 1 0))
    = Shutdown.Returned
        (Shutdown.mkState Shutdown.OnceDone true false 1 false [8 * Second]
           0 2 1 1)
  ∧ (forall st st',
       (Shutdown.workers st + Shutdown.drained st <= 2)%nat ->
       Shutdown.terminate 2 st = Shutdown.Returned st' ->
       Shutdown.workers st = 0%nat ∧ Shutdown.workers st' = 0%nat
       ∧ Shutdown.restores st' = S (Shutdown.restores st))
  ∧ Shutdown.acquireAll 1 2 2 = (2%nat, false).
Proof.
  apply (terminate_drains 2 1). lia.
Defined.

Lemma quitClosed_call cap o st :
  Shutdown.quitClosed (Shutdown.state_of (Shutdown.call cap o st))
  = Shutdown.quitClosed st.
Proof.
  assert (forall st',
            Shutdown.quitClosed (Shutdown.state_of (Shutdown.stop st'))
            = Shutdown.quitClosed st') as Hstop.
  { intros st'. unfold Shutdown.stop, Shutdown.stop_body.
    destruct (Shutdown.once st'); [| done | done].
    destruct (Shutdown.abortClosed st'); [done |].
    cbn [Shutdown.close_abort Shutdown.loopRunning].
    by destruct (Shutdown.loopRunning st'). }
  destruct o; cbn [Shutdown.call]; [apply Hstop |].
  unfold Shutdown.terminate, Shutdown.drain. specialize (Hstop st).
  destruct (Shutdown.stop st) as [st' | |]; [| done | done].
  cbn [Shutdown.state_of] in Hstop.
  destruct (Shutdown.acquireAll _ _ _) as [held [|]]; by cbn.
Qed.

Lemma quitClosed_calls cap os st :
  Shutdown.quitClosed (Shutdown.state_of (Shutdown.calls cap os st))
  = Shutdown.quitClosed st.
Proof.
  revert st. induction os as [| o [| o' os] IH]; intros st; [done | |].
  - rewrite calls_single. apply quitClosed_call.
  - destruct (Shutdown.panicked (Shutdown.call cap o st)) eqn:Hp.
    + cbn [Shutdown.calls].
      pose proof (quitClosed_call cap o st) as Hq.
      by destruct (Shutdown.call cap o st).
    + rewrite calls_cons by done. rewrite IH. apply quitClosed_call.
Qed.

Lemma timers_started cap w os :
  os ≠ [] ->
  Shutdown.timers (Shutdown.state_of (Shutdown.calls cap os (Shutdown.started w)))
  = replicate (terminations os) (8 * Second).
Proof.
  destruct os as [| o os]; [done |]. intros _.
  destruct (first_call cap w o) as (Hp & Hs & _ & Ht & _). cbn zeta in *.
  destruct os as [| o' os]; [by rewrite calls_single |].
  rewrite calls_cons by done.
  destruct (calls_stopped cap (o' :: os) _ Hs) as (_ & _ & _ & Ht' & _).
  cbn zeta in *. rewrite Ht', Ht, <- replicate_add. f_equal.
  unfold terminations. rewrite (filter_app _ [o] (o' :: os)).
  by rewrite length_app.
Qed.

(** X16.  After two or more calls of [terminate] on a started processor
    two forced-quit timers are armed: the first to fire closes [p.quit],
    and the second panics with a close of a closed channel. *)
Theorem second_timer_panics (cap w : nat) (os : list Shutdown.op) :
  (2 <= terminations os)%nat ->
  let st := Shutdown.state_of (Shutdown.calls cap os (Shutdown.started w)) in
  exists st1,
    Shutdown.fire st = Shutdown.Returned st1
    ∧ Shutdown.quitClosed st1 = true
    ∧ Shutdown.panicked (Shutdown.fire st1) = true.
Proof.
  intros Hn. cbn zeta.
  assert (os ≠ []) as Hne by (intros ->; cbn in Hn; lia).
  pose proof (timers_started cap w os Hne) as Ht.
  pose proof (quitClosed_calls cap os (Shutdown.started w)) as Hq.
  cbn [Shutdown.started Shutdown.quitClosed] in Hq.
  destruct (terminations os) as [| [| n]]; [lia | lia |].
  cbn [replicate] in Ht.
  unfold Shutdown.fire at 1. rewrite Ht.
  cbn [Shutdown.set_timers Shutdown.quitClosed]. rewrite Hq.
  eexists. split; [reflexivity |]. split; [done |].
  by cbn.
Qed.

Lemma second_timer_panics_witness :
  let st := Shutdown.state_of
              (Shutdown.calls 0 [Shutdown.Terminate; Shutdown.Terminate]
                 (Shutdown.started 0)) in
  exists st1,
    Shutdown.fire st = Shutdown.Returned st1
    ∧ Shutdown.quitClosed st1 = true
    ∧ Shutdown.panicked (Shutdown.fire st1) = true.
Proof.
  apply (second_timer_panics 0 0 [Shutdown.Terminate; Shutdown.Terminate]).
  vm_compute. lia.
Defined.

(** ** The client, further *)

Lemma last_cons_default {A} (x : A) (l : list A) (d : A) :
  default d (last (x :: l)) = default x (last l).
Proof. rewrite last_cons. by destruct (last l). Qed.

Lemma foldl_applyOption opts res :
  foldl client.applyOption res opts
  = {| client.retry := default (client.retry res) (last_retry opts);
       client.queue := default (client.queue res) (last_queue opts);
       client.timeout := default (client.timeout res) (last_timeout opts);
       client.deadline := default (client.deadline res) (last_deadline opts) |}.
Proof.
  revert res. induction opts as [| o opts IH]; intros res.
  - by destruct res.
  - cbn [foldl]. rewrite IH.
    unfold last_retry, last_queue, last_timeout, last_deadline.
    destruct o; cbn [omap list_omap client.applyOption client.retry
                       client.queue client.timeout client.deadline];
      by rewrite ?last_cons_default.
Qed.

(** X17.  [composeOptions] keeps, of each kind of option, the value of the
    last option of that kind, wherever it stands among options of other
    kinds, and the default (25 retries, the default queue, no timeout, the
    zero deadline) where there is none; a value that is not an option is
    ignored. *)
Theorem composeOptions_last_of_each_kind (opts : list client.Option) :
  client.composeOptions opts
  = {| client.retry := default 25 (last_retry opts);
       client.queue := default base.DefaultQueueName (last_queue opts);
       client.timeout := default 0 (last_timeout opts);
       client.deadline := default 0 (last_deadline opts) |}
  ∧ client.composeOptions (filter (fun o => o ≠ client.unexpectedOption) opts)
    = client.composeOptions opts.
Proof.
  split; [apply foldl_applyOption |].
  unfold client.composeOptions.
  generalize {| client.retry := client.defaultMaxRetry;
                client.queue := base.DefaultQueueName;
                client.timeout := 0; client.deadline := 0 |}.
  induction opts as [| o opts IH]; intros res; [done |].
  rewrite filter_cons.
  destruct (decide (o ≠ client.unexpectedOption)) as [Ho | Ho].
  - cbn [foldl]. apply IH.
  - apply dec_stable in Ho. subst o. cbn [foldl client.applyOption]. apply IH.
Qed.

Example composeOptions_orders :
  client.composeOptions
    [client.Timeout Second; client.MaxRetry 3; client.unexpectedOption;
     client.Timeout 0; client.MaxRetry 1]
  = client.composeOptions [client.MaxRetry 1; client.Timeout 0].
Proof. reflexivity. Qed.

(** The retry count and the queue composed from exported options. *)
Lemma foldl_exported ToLower opts res :
  Forall (exported ToLower) opts ->
  0 <= client.retry res ->
  (client.queue res = base.DefaultQueueName
   ∨ exists name, client.queue res = ToLower name) ->
  0 <= client.retry (foldl client.applyOption res opts)
  ∧ (client.queue (foldl client.applyOption res opts) = base.DefaultQueueName
     ∨ exists name, client.queue (foldl client.applyOption res opts) = ToLower name).
Proof.
  intros Hopts. revert res.
  induction Hopts as [| o opts Ho _ IH]; intros res Hr Hq; [done |].
  cbn [foldl]. apply IH.
  - destruct Ho as [n | name | d | t]; cbn; [| done | done | done].
    destruct (n <? 0) eqn:Hn; [done |]. by apply Z.ltb_ge in Hn.
  - destruct Ho as [n | name | d | t]; cbn; [done | | done | done].
    right. by exists name.
Qed.

(** X18.  Whatever options the exported functions [MaxRetry], [Queue],
    [Timeout] and [Deadline] provide, the message that [EnqueueAt] builds
    has a retry count that is not negative, no attempt behind it, no error
    message, the type and payload of the task, and a queue name that is
    the default one or a lowercased one. *)
Theorem EnqueueAt_msg_wellformed
    (ToLower : string -> string)
    (DurationString : Duration -> string)
    (FormatRFC3339 : Time -> string)
    (id : string) (task : Task) (opts : list client.Option) :
  Forall (exported ToLower) opts ->
  let msg := client.EnqueueAt_msg DurationString FormatRFC3339 id task opts in
  0 <= base.Retry msg
  ∧ base.Retried msg = 0
  ∧ base.ErrorMsg msg = ""
  ∧ base.ID msg = id
  ∧ base.Type_ msg = TaskType task
  ∧ base.Payload msg = TaskPayload task
  ∧ (base.Queue msg = base.DefaultQueueName
     ∨ exists name, base.Queue msg = ToLower name).
Proof.
  intros Hopts msg.
  destruct (foldl_exported ToLower opts
              {| client.retry := client.defaultMaxRetry;
                 client.queue := base.DefaultQueueName;
                 client.timeout := 0; client.deadline := 0 |} Hopts)
    as [Hr Hq]; [done | by left |].
  by repeat split.
Qed.

Lemma EnqueueAt_msg_wellformed_witness :
  let msg := client.EnqueueAt_msg sample_DurationString sample_FormatRFC3339
               "bpt0003" (NewTask "send_email" ∅)
               [client.MaxRetry (-3); client.Queue client.ToLower_ascii "Critical"] in
  0 <= base.Retry msg
  ∧ base.Retried msg = 0
  ∧ base.ErrorMsg msg = ""
  ∧ base.ID msg = "bpt0003"
  ∧ base.Type_ msg = TaskType (NewTask "send_email" ∅)
  ∧ base.Payload msg = TaskPayload (NewTask "send_email" ∅)
  ∧ (base.Queue msg = base.DefaultQueueName
     ∨ exists name, base.Queue msg = client.ToLower_ascii name).
Proof.
  apply (EnqueueAt_msg_wellformed client.ToLower_ascii sample_DurationString
           sample_FormatRFC3339 "bpt0003" (NewTask "send_email" ∅)
           [client.MaxRetry (-3); client.Queue client.ToLower_ascii "Critical"]).
  repeat constructor.
Defined.

(** X19.  [Enqueue] is [EnqueueIn] with no delay.  A method of the client
    calls [Schedule], with the processing time it was given, exactly if
    that time is not before the clock reading of [enqueue], and calls
    [Enqueue] of the broker otherwise; so [Enqueue] of the client, whose
    processing time is its own earlier clock reading, pushes the message
    to the queue only if the clock has moved on between the two readings
    and schedules it for the first reading if it has not.  In each case
    the message is the one composed from the options. *)
Theorem Enqueue_or_Schedule
    (DurationString : Duration -> string)
    (FormatRFC3339 : Time -> string)
    (id : string) (task : Task) (opts : list client.Option)
    (now1 now2 : Time) (d : Duration) :
  let msg := client.EnqueueAt_msg DurationString FormatRFC3339 id task opts in
  Client.Enqueue DurationString FormatRFC3339 id now1 now2 task opts
  = Client.EnqueueIn DurationString FormatRFC3339 id now1 now2 0 task opts
  ∧ (Client.EnqueueIn DurationString FormatRFC3339 id now1 now2 d task opts
     = Client.CallSchedule msg (now1 + d) <-> now2 <= now1 + d)
  ∧ (Client.EnqueueIn DurationString FormatRFC3339 id now1 now2 d task opts
     = Client.CallEnqueue msg <-> now1 + d < now2)
  ∧ (now1 <= now2 ->
     (Client.Enqueue DurationString FormatRFC3339 id now1 now2 task opts
      = Client.CallSchedule msg now1 <-> now1 = now2)).
Proof.
  cbn zeta. unfold Client.Enqueue, Client.EnqueueIn, Client.EnqueueAt,
    Client.enqueue.
  rewrite Z.add_0_r. split; [done |].
  destruct (Z.ltb_spec (now1 + d) now2), (Z.ltb_spec now1 now2);
    repeat split; intros; try done; try lia.
Qed.

Lemma Enqueue_or_Schedule_witness :
  Client.Enqueue sample_DurationString sample_FormatRFC3339 "bpt0004"
    unix_epoch unix_epoch (NewTask "send_email" ∅) []
  = Client.CallSchedule
      (client.EnqueueAt_msg sample_DurationString sample_FormatRFC3339
         "bpt0004" (NewTask "send_email" ∅) [])
      unix_epoch
  <-> unix_epoch = unix_epoch.
Proof.
  apply (proj2 (proj2 (proj2 (Enqueue_or_Schedule sample_DurationString
                                sample_FormatRFC3339 "bpt0004"
                                (NewTask "send_email" ∅) [] unix_epoch
                                unix_epoch 0)))).
  lia.
Defined.

(** ** [gcd] and the weighted selection, further *)

Lemma gcd_list_greatest xs d :
  (forall x, x ∈ xs -> (d | x)) -> (d | gcd_list xs).
Proof.
  induction xs as [| x xs IH]; intros Hd; simpl.
  - apply Z.divide_0_r.
  - apply Z.gcd_greatest.
    + apply Hd. left.
    + apply IH. intros y Hy. apply Hd. by right.
Qed.

(** X20.  On a non-empty list of positive integers [gcd] returns their
    greatest common divisor, the early return on 1 included: a positive
    number that divides every element and is divided by every common
    divisor of the elements. *)
Theorem gcd_greatest_common_divisor (xs : list Z) :
  xs ≠ [] -> Forall (fun x => 0 < x) xs ->
  exists g,
    gcd xs = Ok g
    ∧ 0 < g
    ∧ (forall x, x ∈ xs -> (g | x))
    ∧ (forall d, (forall x, x ∈ xs -> (d | x)) -> (d | g)).
Proof.
  intros Hne Hpos. exists (gcd_list xs).
  split; [by apply gcd_spec |]. split; [by apply gcd_list_pos |].
  split; [intros x Hx; by apply gcd_list_divide |].
  apply gcd_list_greatest.
Qed.

Lemma gcd_greatest_common_divisor_witness :
  exists g,
    gcd [6; 4; 2] = Ok g
    ∧ 0 < g
    ∧ (forall x, x ∈ [6; 4; 2] -> (g | x))
    ∧ (forall d, (forall x, x ∈ [6; 4; 2] -> (d | x)) -> (d | g)).
Proof.
  apply (gcd_greatest_common_divisor [6; 4; 2]).
  - discriminate.
  - repeat constructor.
Defined.

(** X21.  In the weighted-random mode (no strict priority, not exactly one
    queue) [queues] returns, for every random generator, each queue of
    positive weight exactly once and no other queue: a queue whose weight
    is zero or negative is never polled. *)
Theorem queues_positive_weights_only {B} (p : processor B)
    (it : list (string * Z)) (r : Rand) :
  size (queueConfig p) ≠ 1%nat ->
  orderedQueues p = None ->
  ranges (queueConfig p) it ->
  exists qs,
    queues p it r = Ok qs
    ∧ NoDup qs
    ∧ (forall q, q ∈ qs <-> exists w, queueConfig p !! q = Some w ∧ 0 < w).
Proof.
  intros Hsize Hord Hit.
  destruct (Shuffle_perm r (weighted_names it)) as (names & Hsh & Hperm).
  assert (forall q, q ∈ dedup_first names
                    <-> exists w, queueConfig p !! q = Some w ∧ 0 < w) as Hel.
  { intros q. rewrite elem_of_dedup_first, Hperm, elem_of_weighted_names.
    unfold ranges in Hit. setoid_rewrite Hit.
    by setoid_rewrite elem_of_map_to_list. }
  assert (length (dedup_first names) <= size (queueConfig p))%nat as Hlen.
  { rewrite <- (size_dom (D := gset string)).
    change (size (dom (queueConfig p)))
      with (length (elements (dom (queueConfig p)))).
    apply submseteq_length, NoDup_submseteq; [apply NoDup_dedup_first |].
    intros q Hq. apply elem_of_elements, elem_of_dom.
    apply Hel in Hq as (w & Hw & _). by exists w. }
  exists (dedup_first names).
  split; [| split; [apply NoDup_dedup_first | done]].
  unfold queues. destruct (decide (size (queueConfig p) = 1%nat)); [done |].
  rewrite Hord, Hsh. cbn [mbind result_bind]. f_equal.
  destruct (decide (size (queueConfig p) = 0%nat)) as [-> | Hnz].
  - apply uniq_zero.
  - rewrite uniq_spec by lia. by apply take_ge.
Qed.

Lemma queues_positive_weights_only_witness :
  exists qs,
    queues zero_weight_processor
      (map_to_list (queueConfig zero_weight_processor)) sample_rand
    = Ok qs
    ∧ NoDup qs
    ∧ (forall q, q ∈ qs
                 <-> exists w,
                       queueConfig zero_weight_processor !! q = Some w ∧ 0 < w).
Proof.
  apply (queues_positive_weights_only zero_weight_processor).
  - vm_compute. discriminate.
  - reflexivity.
  - unfold ranges. reflexivity.
Defined.

Example queues_skips_zero_weight :
  queues zero_weight_processor
    (map_to_list (queueConfig zero_weight_processor)) sample_rand
  = Ok ["default"].
Proof. vm_compute. reflexivity. Qed.

(** A weight of zero survives normalization. *)
Example normalize_keeps_zero_weight :
  let W : gmap string Z := <["default" := 4]> {["low" := 0]} in
  normalizeQueueCfg (map_to_list W) (map_to_list W)
  = Ok (queueConfig zero_weight_processor).
Proof. vm_compute. reflexivity. Qed.
